(** * aZero sparse set: a shallow embedding of SparseSet.hpp and SparseSet.h

    The repository holds two copies of one container:
    - [include/SparseSet.hpp], class [aZero::DS::SparseSet] (Insert / Erase /
      Reserve), embedded in module [DS];
    - [src/include/SparseSet.h], class [aZero::SparseSet] (Add / Remove /
      ExtendTo, with hand-written copy and move members), embedded in
      module [AZ].

    Identifiers are values of an unsigned integer type; they are modelled as
    [N] with the wrap-around of the type written out.  The three
    [std::vector] members are lists, [std::vector::at] is a partial lookup
    whose failure is the [std::out_of_range] exception, and every member
    function is a computation in a state-and-exception monad in which a
    thrown exception keeps the mutations made before it.  Elements are
    returned by value; vector capacity ([InternalSize], [shrink_to_fit]) is
    left out, and allocation never fails. *)

From stdpp Require Import base numbers option list gmap.

Local Open Scope N_scope.

(** ** The identifier type *)

(** [concept UnsignedInteger]: uint8_t, uint16_t, uint32_t or uint64_t.
    [SparseSet.h] accepts any integral type; it is modelled at the unsigned
    types, which are the ones both classes share. *)
Inductive IDWidth : Set := U8 | U16 | U32 | U64.

Definition bits (w : IDWidth) : N :=
  match w with U8 => 8 | U16 => 16 | U32 => 32 | U64 => 64 end.

Definition modulus (w : IDWidth) : N := 2 ^ bits w.

(** Conversion of an arithmetic result to [IDType]. *)
Definition wrap (w : IDWidth) (x : N) : N := x mod modulus w.

(** [std::numeric_limits<IDType>::max()]: [InvalidIndex] in SparseSet.hpp,
    [m_EmptyIndex] in SparseSet.h. *)
Definition InvalidIndex (w : IDWidth) : N := modulus w - 1.

(** [x + 1] and [x - 1] in [IDType]. *)
Definition incr (w : IDWidth) (x : N) : N := wrap w (x + 1).
Definition decr (w : IDWidth) (x : N) : N := wrap w (x + modulus w - 1).

(** A value of [IDType]. *)
Definition is_id (w : IDWidth) (x : N) : Prop := x < modulus w.

(** ** std::vector *)

Definition vsize {A} (v : list A) : N := N.of_nat (length v).

(** [v.at(i)] as an rvalue; [None] is [std::out_of_range]. *)
Definition vat {A} (v : list A) (i : N) : option A := v !! N.to_nat i.

(** [v.at(i) = x]; [None] is [std::out_of_range]. *)
Definition vput {A} (v : list A) (i : N) (x : A) : option (list A) :=
  if i <? vsize v then Some (<[N.to_nat i := x]> v) else None.

Definition push_back {A} (v : list A) (x : A) : list A := v ++ [x].

(** [v.resize(n, x)]. *)
Definition vresize {A} (n : N) (x : A) (v : list A) : list A :=
  resize (N.to_nat n) x v.

(** [ElementType()], the value [std::vector::resize(n)] fills new slots
    with. *)
Class ValueInit (E : Type) : Type := value_init : E.

(** ** The object state and the monad of member functions *)

(** Both classes declare the same four data members. *)
Record SparseSet (E : Type) : Type := mkSparseSet {
  m_ID_To_Element : list N;
  m_Element_To_ID : list N;
  m_Elements : list E;
  m_CurrentLast : N
}.
Arguments mkSparseSet {E} _ _ _ _.
Arguments m_ID_To_Element {E} _.
Arguments m_Element_To_ID {E} _.
Arguments m_Elements {E} _.
Arguments m_CurrentLast {E} _.

Definition set_ID_To_Element {E} (v : list N) (s : SparseSet E) : SparseSet E :=
  mkSparseSet v (m_Element_To_ID s) (m_Elements s) (m_CurrentLast s).
Definition set_Element_To_ID {E} (v : list N) (s : SparseSet E) : SparseSet E :=
  mkSparseSet (m_ID_To_Element s) v (m_Elements s) (m_CurrentLast s).
Definition set_Elements {E} (v : list E) (s : SparseSet E) : SparseSet E :=
  mkSparseSet (m_ID_To_Element s) (m_Element_To_ID s) v (m_CurrentLast s).
Definition set_CurrentLast {E} (c : N) (s : SparseSet E) : SparseSet E :=
  mkSparseSet (m_ID_To_Element s) (m_Element_To_ID s) (m_Elements s) c.

(** How a call ends: it returns, or [std::out_of_range] leaves it. *)
Inductive Outcome (A : Type) : Type :=
  | Returned (a : A)
  | OutOfRange.
Arguments Returned {A} _.
Arguments OutOfRange {A}.

(** A member function: from the object before the call to the outcome and
    the object after it.  The object after a throw carries every write
    made before the throw. *)
Definition M (E A : Type) : Type := SparseSet E -> Outcome A * SparseSet E.

Definition ret {E A} (a : A) : M E A := fun s => (Returned a, s).

Definition bind {E A B} (m : M E A) (k : A -> M E B) : M E B :=
  fun s => match m s with
           | (Returned a, s') => k a s'
           | (OutOfRange, s') => (OutOfRange, s')
           end.

Notation "'do' x <- m ; k" := (bind m (fun x => k))
  (at level 10, x name, m at level 100, k at level 200).
Notation "m ;; k" := (bind m (fun _ => k))
  (at level 100, k at level 200, right associativity).

(** Reading a member. *)
Definition read {E A} (f : SparseSet E -> A) : M E A := fun s => (Returned (f s), s).

(** Writing a member. *)
Definition write {E} (f : SparseSet E -> SparseSet E) : M E unit :=
  fun s => (Returned tt, f s).

(** [member.at(i)] read. *)
Definition at_ {E A} (member : SparseSet E -> list A) (i : N) : M E A :=
  fun s => match vat (member s) i with
           | Some x => (Returned x, s)
           | None => (OutOfRange, s)
           end.

(** [member.at(i) = x]. *)
Definition assign_at {E A} (member : SparseSet E -> list A)
    (set : list A -> SparseSet E -> SparseSet E) (i : N) (x : A) : M E unit :=
  fun s => match vput (member s) i x with
           | Some v => (Returned tt, set v s)
           | None => (OutOfRange, s)
           end.

(** The outcome and the object after a call. *)
Definition outcome {E A} (r : Outcome A * SparseSet E) : Outcome A := fst r.
Definition after {E A} (r : Outcome A * SparseSet E) : SparseSet E := snd r.

(** What a call does: it ends with an outcome and an object, or its
    behaviour is undefined. *)
Inductive Behaviour (E A : Type) : Type :=
  | Defined (r : Outcome A * SparseSet E)
  | Undefined.
Arguments Defined {E A} _.
Arguments Undefined {E A}.

(** A function that returns an [A] and whose body is [body] with no
    return statement: when the body has run through, control flows off the
    end of the function and the behaviour is undefined; an exception
    thrown in the body leaves the function before that. *)
Definition flows_off_the_end {E A} (body : M E unit)
    : SparseSet E -> Behaviour E A :=
  fun s => match body s with
           | (Returned _, _) => Undefined
           | (OutOfRange, s') => Defined (OutOfRange, s')
           end.

(** ** include/SparseSet.hpp *)

Module DS.
Section SparseSet_hpp.
Context {E : Type} {E0 : ValueInit E} (w : IDWidth).

(** [SparseSet()] *)
Definition SparseSet_default : SparseSet E := mkSparseSet [] [] [] 0.

(** [SparseSet(IDType numElements)] *)
Definition SparseSet_sized (numElements : N) : SparseSet E :=
    mkSparseSet (vresize numElements (InvalidIndex w) []) [] [] 0.

(** The implicitly declared copy constructor: member-wise copy. *)
Definition SparseSet_copy (Other : SparseSet E) : SparseSet E :=
    mkSparseSet (m_ID_To_Element Other) (m_Element_To_ID Other)
                (m_Elements Other) (m_CurrentLast Other).

Definition Exists (id : N) : M E bool :=
    do size <- read (fun s => vsize (m_ID_To_Element s));
    if size <=? id then ret false
    else
      do elementIndex <- at_ m_ID_To_Element id;
      ret (negb (elementIndex =? InvalidIndex w)).

(** [void Insert(IDType id, const ElementType& element)] *)
Definition Insert (id : N) (element : E) : M E unit :=
    do present <- Exists id;
    if negb present then
      do last <- read m_CurrentLast;
      do size <- read (fun s => vsize (m_Elements s));
      (if last <? size then
         assign_at m_Elements set_Elements last element;;
         assign_at m_Element_To_ID set_Element_To_ID last id
       else
         write (fun s => set_Elements (push_back (m_Elements s) element) s);;
         write (fun s => set_Element_To_ID (push_back (m_Element_To_ID s) id) s));;
      do cur <- read m_CurrentLast;
      assign_at m_ID_To_Element set_ID_To_Element id cur;;
      do cur' <- read m_CurrentLast;
      write (set_CurrentLast (incr w cur'))
    else ret tt.

(** [bool Insert(IDType id, ElementType&& element)] *)
Definition Insert_move (id : N) (element : E) : M E bool :=
    do present <- Exists id;
    if negb present then
      do last <- read m_CurrentLast;
      do size <- read (fun s => vsize (m_Elements s));
      (if last <? size then
         assign_at m_Elements set_Elements last element;;
         assign_at m_Element_To_ID set_Element_To_ID last id
       else
         write (fun s => set_Elements (push_back (m_Elements s) element) s);;
         write (fun s => set_Element_To_ID (push_back (m_Element_To_ID s) id) s));;
      do cur <- read m_CurrentLast;
      assign_at m_ID_To_Element set_ID_To_Element id cur;;
      do cur' <- read m_CurrentLast;
      write (set_CurrentLast (incr w cur'));;
      ret true
    else ret false.

(** [bool Erase(IDType id)].  In [a.at(i) = std::move(a.at(j))] the right
      operand is evaluated first; [ElementType] is trivially copyable, so
      the move is a copy and the source slot keeps its value. *)
Definition Erase (id : N) : M E bool :=
    do present <- Exists id;
    if present then
      do last <- read m_CurrentLast;
      let LastIndex := decr w last in
      do RemovedElementIndex <- at_ m_ID_To_Element id;
      (if negb (RemovedElementIndex =? LastIndex) then
         do moved <- at_ m_Elements LastIndex;
         assign_at m_Elements set_Elements RemovedElementIndex moved;;
         do LastElementID <- at_ m_Element_To_ID LastIndex;
         assign_at m_ID_To_Element set_ID_To_Element LastElementID RemovedElementIndex;;
         assign_at m_Element_To_ID set_Element_To_ID RemovedElementIndex LastElementID
       else ret tt);;
      assign_at m_ID_To_Element set_ID_To_Element id (InvalidIndex w);;
      do last' <- read m_CurrentLast;
      write (set_CurrentLast (decr w last'));;
      ret true
    else ret false.

(** [Get]: the element is returned by value; the reference the C++
      function hands out is not modelled. *)
Definition Get (id : N) : M E E :=
    do elementIndex <- at_ m_ID_To_Element id;
    at_ m_Elements elementIndex.

Definition GetIfExists (id : N) : M E (option E) :=
    do present <- Exists id;
    if present then
      do elementIndex <- at_ m_ID_To_Element id;
      do element <- at_ m_Elements elementIndex;
      ret (Some element)
    else ret None.

Definition GetData : M E (list E) := read m_Elements.

(** [shrink_to_fit] only concerns capacity, which is not modelled. *)
Definition ShrinkToFit : M E unit :=
    do last <- read m_CurrentLast;
    write (fun s => set_Elements (vresize last value_init (m_Elements s)) s);;
    do last' <- read m_CurrentLast;
    write (fun s => set_Element_To_ID (vresize last' 0 (m_Element_To_ID s)) s).

Definition Reserve (numEntries : N) : M E unit :=
    do size <- read (fun s => vsize (m_ID_To_Element s));
    if size <? numEntries then
      write (fun s => set_ID_To_Element
                        (vresize numEntries (InvalidIndex w) (m_ID_To_Element s)) s)
    else ret tt.

(** Returns [std::size_t]. *)
Definition NumSupportedElements : M E N :=
    read (fun s => vsize (m_ID_To_Element s)).

Definition GetElementIndex (id : N) : M E N := at_ m_ID_To_Element id.
End SparseSet_hpp.
End DS.

(** ** src/include/SparseSet.h *)

Module AZ.
Section SparseSet_h.
Context {E : Type} {E0 : ValueInit E} (w : IDWidth).

(** [SparseSet() = default], with [m_CurrentLast = 0] from the member's
      default initializer. *)
Definition SparseSet_default : SparseSet E := mkSparseSet [] [] [] 0.

(** [SparseSet(IDType NumElements)] *)
Definition SparseSet_sized (NumElements : N) : SparseSet E :=
    mkSparseSet (vresize NumElements (InvalidIndex w) []) [] [] 0.

(** [SparseSet(const SparseSet& Other)]: the three vectors are assigned
      in the body; [m_CurrentLast] is not mentioned and takes its default
      member initializer. *)
Definition SparseSet_copy (Other : SparseSet E) : SparseSet E :=
    let this := mkSparseSet [] [] [] 0 in
    let this := set_ID_To_Element (m_ID_To_Element Other) this in
    let this := set_Element_To_ID (m_Element_To_ID Other) this in
    set_Elements (m_Elements Other) this.

(** The three statements that make up the body of
      [operator=(const SparseSet& Other)], on [*this]. *)
Definition copy_assign_body (Other : SparseSet E) : M E unit :=
    write (set_ID_To_Element (m_ID_To_Element Other));;
    write (set_Element_To_ID (m_Element_To_ID Other));;
    write (set_Elements (m_Elements Other)).

(** [SparseSet& operator=(const SparseSet& Other)]: the body ends without
      a return statement. *)
Definition copy_assign (Other : SparseSet E)
    : SparseSet E -> Behaviour E (SparseSet E) :=
    flows_off_the_end (copy_assign_body Other).

(** [SparseSet(SparseSet&& Other)]: what the new object receives.  The
      state [Other] is left in is not modelled. *)
Definition SparseSet_move (Other : SparseSet E) : SparseSet E :=
    let this := mkSparseSet [] [] [] 0 in
    let this := set_ID_To_Element (m_ID_To_Element Other) this in
    let this := set_Element_To_ID (m_Element_To_ID Other) this in
    set_Elements (m_Elements Other) this.

(** The three statements that make up the body of
      [operator=(SparseSet&& Other)], on [*this]; the state [Other] is
      left in is not modelled. *)
Definition move_assign_body (Other : SparseSet E) : M E unit :=
    write (set_ID_To_Element (m_ID_To_Element Other));;
    write (set_Element_To_ID (m_Element_To_ID Other));;
    write (set_Elements (m_Elements Other)).

(** [SparseSet& operator=(SparseSet&& Other) noexcept]: the body ends
      without a return statement. *)
Definition move_assign (Other : SparseSet E)
    : SparseSet E -> Behaviour E (SparseSet E) :=
    flows_off_the_end (move_assign_body Other).

Definition Exists (ID : N) : M E bool :=
    do size <- read (fun s => vsize (m_ID_To_Element s));
    if size <=? ID then ret false
    else
      do elementIndex <- at_ m_ID_To_Element ID;
      ret (negb (elementIndex =? InvalidIndex w)).

(** [void Add(IDType ID, const ElementType& Element)] *)
Definition Add (ID : N) (Element : E) : M E unit :=
    do present <- Exists ID;
    if negb present then
      do last <- read m_CurrentLast;
      do size <- read (fun s => vsize (m_Elements s));
      (if last <? size then
         assign_at m_Elements set_Elements last Element;;
         assign_at m_Element_To_ID set_Element_To_ID last ID
       else
         write (fun s => set_Elements (push_back (m_Elements s) Element) s);;
         write (fun s => set_Element_To_ID (push_back (m_Element_To_ID s) ID) s));;
      do cur <- read m_CurrentLast;
      assign_at m_ID_To_Element set_ID_To_Element ID cur;;
      do cur' <- read m_CurrentLast;
      write (set_CurrentLast (incr w cur'))
    else ret tt.

(** [void Add(IDType ID, ElementType&& Element)] *)
Definition Add_move (ID : N) (Element : E) : M E unit :=
    do present <- Exists ID;
    if negb present then
      do last <- read m_CurrentLast;
      do size <- read (fun s => vsize (m_Elements s));
      (if last <? size then
         assign_at m_Elements set_Elements last Element;;
         assign_at m_Element_To_ID set_Element_To_ID last ID
       else
         write (fun s => set_Elements (push_back (m_Elements s) Element) s);;
         write (fun s => set_Element_To_ID (push_back (m_Element_To_ID s) ID) s));;
      do cur <- read m_CurrentLast;
      assign_at m_ID_To_Element set_ID_To_Element ID cur;;
      do cur' <- read m_CurrentLast;
      write (set_CurrentLast (incr w cur'))
    else ret tt.

(** [void Remove(IDType ID)].  The moved-from slot is modelled as
      keeping its value, as for the trivially copyable elements of
      SparseSet.hpp. *)
Definition Remove (ID : N) : M E unit :=
    do present <- Exists ID;
    if present then
      do last <- read m_CurrentLast;
      let LastIndex := decr w last in
      do RemovedElementIndex <- at_ m_ID_To_Element ID;
      (if negb (RemovedElementIndex =? LastIndex) then
         do moved <- at_ m_Elements LastIndex;
         assign_at m_Elements set_Elements RemovedElementIndex moved;;
         do LastElementID <- at_ m_Element_To_ID LastIndex;
         assign_at m_ID_To_Element set_ID_To_Element LastElementID RemovedElementIndex;;
         assign_at m_Element_To_ID set_Element_To_ID RemovedElementIndex LastElementID
       else ret tt);;
      assign_at m_ID_To_Element set_ID_To_Element ID (InvalidIndex w);;
      do last' <- read m_CurrentLast;
      write (set_CurrentLast (decr w last'))
    else ret tt.

Definition Get (ID : N) : M E E :=
    do elementIndex <- at_ m_ID_To_Element ID;
    at_ m_Elements elementIndex.

Definition GetIfExists (ID : N) : M E (option E) :=
    do present <- Exists ID;
    if present then
      do elementIndex <- at_ m_ID_To_Element ID;
      do element <- at_ m_Elements elementIndex;
      ret (Some element)
    else ret None.

Definition GetData : M E (list E) := read m_Elements.

Definition ShrinkToFit : M E unit :=
    do last <- read m_CurrentLast;
    write (fun s => set_Elements (vresize last value_init (m_Elements s)) s);;
    do last' <- read m_CurrentLast;
    write (fun s => set_Element_To_ID (vresize last' 0 (m_Element_To_ID s)) s).

Definition ExtendTo (NumEntries : N) : M E unit :=
    do size <- read (fun s => vsize (m_ID_To_Element s));
    if size <? NumEntries then
      write (fun s => set_ID_To_Element
                        (vresize NumEntries (InvalidIndex w) (m_ID_To_Element s)) s)
    else ret tt.

(** Returns [IDType]: the size is converted. *)
Definition NumSupportedElements : M E N :=
    do size <- read (fun s => vsize (m_ID_To_Element s));
    ret (wrap w size).
End SparseSet_h.
End AZ.

(** ** Sequences of calls *)

(** The public member functions of the two classes, by the name they have
    in SparseSet.hpp. *)
Inductive Call (E : Type) : Type :=
  | CInsert (id : N) (element : E)
  | CInsertMove (id : N) (element : E)
  | CErase (id : N)
  | CGet (id : N)
  | CGetIfExists (id : N)
  | CExists (id : N)
  | CShrinkToFit
  | CReserve (numEntries : N)
  | CNumSupportedElements
  | CGetData.
Arguments CInsert {E} _ _.
Arguments CInsertMove {E} _ _.
Arguments CErase {E} _.
Arguments CGet {E} _.
Arguments CGetIfExists {E} _.
Arguments CExists {E} _.
Arguments CShrinkToFit {E}.
Arguments CReserve {E} _.
Arguments CNumSupportedElements {E}.
Arguments CGetData {E}.

(** The two constructors that build a set from nothing. *)
Inductive Ctor : Set :=
  | CtorDefault
  | CtorSized (numElements : N).

(** What the caller of a member function sees when the call is over. *)
Inductive Obs (E : Type) : Type :=
  | OVoid
  | OBool (b : bool)
  | OElement (e : E)
  | OOptional (o : option E)
  | OSize (n : N)
  | OData (v : list E)
  | OThrow.
Arguments OVoid {E}.
Arguments OBool {E} _.
Arguments OElement {E} _.
Arguments OOptional {E} _.
Arguments OSize {E} _.
Arguments OData {E} _.
Arguments OThrow {E}.

Definition observe {E A} (f : A -> Obs E) (r : Outcome A * SparseSet E)
    : Obs E * SparseSet E :=
  match r with
  | (Returned a, s) => (f a, s)
  | (OutOfRange, s) => (OThrow, s)
  end.

(** Every argument of the call is a value of [IDType]. *)
Definition call_ok {E} (w : IDWidth) (c : Call E) : Prop :=
  match c with
  | CInsert id _ | CInsertMove id _ | CErase id | CGet id
  | CGetIfExists id | CExists id => is_id w id
  | CReserve n => is_id w n
  | CShrinkToFit | CNumSupportedElements | CGetData => True
  end.

(** The call does not pass the reserved value [InvalidIndex] to Insert as
    an identifier. *)
Definition no_sentinel {E} (w : IDWidth) (c : Call E) : Prop :=
  match c with
  | CInsert id _ | CInsertMove id _ => id ≠ InvalidIndex w
  | _ => True
  end.

Definition ctor_ok (w : IDWidth) (c : Ctor) : Prop :=
  match c with
  | CtorDefault => True
  | CtorSized n => is_id w n
  end.

Module DSCalls.
Section calls.
Context {E : Type} {E0 : ValueInit E} (w : IDWidth).

Definition construct (c : Ctor) : SparseSet E :=
  match c with
  | CtorDefault => DS.SparseSet_default
  | CtorSized n => DS.SparseSet_sized w n
  end.

Definition call (c : Call E) (s : SparseSet E) : Obs E * SparseSet E :=
  match c with
  | CInsert id e => observe (fun _ => OVoid) (DS.Insert w id e s)
  | CInsertMove id e => observe OBool (DS.Insert_move w id e s)
  | CErase id => observe OBool (DS.Erase w id s)
  | CGet id => observe OElement (DS.Get id s)
  | CGetIfExists id => observe OOptional (DS.GetIfExists w id s)
  | CExists id => observe OBool (DS.Exists w id s)
  | CShrinkToFit => observe (fun _ => OVoid) (DS.ShrinkToFit s)
  | CReserve n => observe (fun _ => OVoid) (DS.Reserve w n s)
  | CNumSupportedElements => observe OSize (DS.NumSupportedElements s)
  | CGetData => observe OData (DS.GetData s)
  end.

(** The object after a sequence of calls; a call that throws leaves the
    object as it was at the throw and the sequence goes on. *)
Definition exec (calls : list (Call E)) (s : SparseSet E) : SparseSet E :=
  foldl (fun s c => snd (call c s)) s calls.

(** What the caller saw, call by call. *)
Fixpoint trace (calls : list (Call E)) (s : SparseSet E) : list (Obs E) :=
  match calls with
  | [] => []
  | c :: calls' => fst (call c s) :: trace calls' (snd (call c s))
  end.
End calls.
End DSCalls.

Module AZCalls.
Section calls.
Context {E : Type} {E0 : ValueInit E} (w : IDWidth).

Definition construct (c : Ctor) : SparseSet E :=
  match c with
  | CtorDefault => AZ.SparseSet_default
  | CtorSized n => AZ.SparseSet_sized w n
  end.

(** The same calls under the names of SparseSet.h: Add, Remove and
    ExtendTo for Insert, Erase and Reserve. *)
Definition call (c : Call E) (s : SparseSet E) : Obs E * SparseSet E :=
  match c with
  | CInsert id e => observe (fun _ => OVoid) (AZ.Add w id e s)
  | CInsertMove id e => observe (fun _ => OVoid) (AZ.Add_move w id e s)
  | CErase id => observe (fun _ => OVoid) (AZ.Remove w id s)
  | CGet id => observe OElement (AZ.Get id s)
  | CGetIfExists id => observe OOptional (AZ.GetIfExists w id s)
  | CExists id => observe OBool (AZ.Exists w id s)
  | CShrinkToFit => observe (fun _ => OVoid) (AZ.ShrinkToFit s)
  | CReserve n => observe (fun _ => OVoid) (AZ.ExtendTo w n s)
  | CNumSupportedElements => observe OSize (AZ.NumSupportedElements w s)
  | CGetData => observe OData (AZ.GetData s)
  end.

Definition exec (calls : list (Call E)) (s : SparseSet E) : SparseSet E :=
  foldl (fun s c => snd (call c s)) s calls.

Fixpoint trace (calls : list (Call E)) (s : SparseSet E) : list (Obs E) :=
  match calls with
  | [] => []
  | c :: calls' => fst (call c s) :: trace calls' (snd (call c s))
  end.
End calls.
End AZCalls.

(** What SparseSet.h lets the caller see of an observation made on
    SparseSet.hpp: [Add(IDType, ElementType&&)] and [Remove] return [void]
    where [Insert(IDType, ElementType&&)] and [Erase] return [bool]. *)
Definition void_of {E} (c : Call E) (o : Obs E) : Obs E :=
  match c, o with
  | CInsertMove _ _, OBool _ => OVoid
  | CErase _, OBool _ => OVoid
  | _, _ => o
  end.

(** ** The set as the specification describes it *)

(** The identifiers the set supports are [0 .. supported-1]; [entries] maps
    each identifier that exists to its current value. *)
Record Model (E : Type) : Type := mkModel {
  supported : N;
  entries : gmap N E
}.
Arguments mkModel {E} _ _.
Arguments supported {E} _.
Arguments entries {E} _.

Definition model_construct {E} (c : Ctor) : Model E :=
  match c with
  | CtorDefault => mkModel 0 ∅
  | CtorSized n => mkModel n ∅
  end.

(** Insert creates an entry for a supported identifier that has none and
    leaves an existing one alone; Erase destroys the entry; Reserve
    extends the support and never shrinks it; nothing else changes the
    set. *)
Definition model_step {E} (c : Call E) (m : Model E) : Model E :=
  match c with
  | CInsert id e | CInsertMove id e =>
      match entries m !! id with
      | Some _ => m
      | None => if id <? supported m
                then mkModel (supported m) (<[id := e]> (entries m))
                else m
      end
  | CErase id => mkModel (supported m) (delete id (entries m))
  | CReserve n => mkModel (N.max (supported m) n) (entries m)
  | _ => m
  end.

Definition model_exec {E} (calls : list (Call E)) (m : Model E) : Model E :=
  foldl (fun m c => model_step c m) m calls.

(** ** Consistency of the three arrays *)

Section consistency.
Context {E : Type} (w : IDWidth).

(** Number of sparse-table slots that hold a dense position. *)
Definition live_slots (sparse : list N) : nat :=
  length (filter (fun pos => pos ≠ InvalidIndex w) sparse).

(** Invariant 1 of the specification, the value part aside: a sparse entry
    that is not [Invalid] is a live dense position owned by the
    identifier. *)
Definition sparse_to_dense (s : SparseSet E) : Prop :=
  ∀ id pos, vat (m_ID_To_Element s) id = Some pos -> pos ≠ InvalidIndex w ->
    pos < m_CurrentLast s ∧ vat (m_Element_To_ID s) pos = Some id.

(** Invariant 2 of the specification. *)
Definition dense_to_sparse (s : SparseSet E) : Prop :=
  ∀ pos, pos < m_CurrentLast s ->
    ∃ id, vat (m_Element_To_ID s) pos = Some id ∧
          vat (m_ID_To_Element s) id = Some pos.

(** The class invariant: the two invariants above, and the bounds that
    keep them stable under every member function. *)
Record wf (s : SparseSet E) : Prop := mkWf {
  wf_support : vsize (m_ID_To_Element s) <= InvalidIndex w;
  wf_count : m_CurrentLast s = N.of_nat (live_slots (m_ID_To_Element s));
  wf_dense_len : length (m_Element_To_ID s) = length (m_Elements s);
  wf_dense_cap : m_CurrentLast s <= vsize (m_Elements s);
  wf_sparse : sparse_to_dense s;
  wf_dense : dense_to_sparse s
}.

(** The value the arrays hold for an identifier, if it exists. *)
Definition stored (s : SparseSet E) (id : N) : option E :=
  match vat (m_ID_To_Element s) id with
  | Some pos => if pos =? InvalidIndex w then None else vat (m_Elements s) pos
  | None => None
  end.

(** The arrays represent the set [m]. *)
Definition represents (s : SparseSet E) (m : Model E) : Prop :=
  supported m = vsize (m_ID_To_Element s) ∧
  ∀ id, entries m !! id = stored s id.

(** Invariant 1 of the specification, in full: the dense element array
    holds the identifier's current value. *)
Definition invariant1 (s : SparseSet E) (m : Model E) : Prop :=
  ∀ id pos, vat (m_ID_To_Element s) id = Some pos -> pos ≠ InvalidIndex w ->
    pos < m_CurrentLast s ∧
    vat (m_Element_To_ID s) pos = Some id ∧
    ∃ v, entries m !! id = Some v ∧ vat (m_Elements s) pos = Some v.

Definition invariant2 (s : SparseSet E) : Prop := dense_to_sparse s.
End consistency.

(** ** Descriptions used in the statements *)

Section descriptions.
Context {E : Type} (w : IDWidth).

(** The identifier is supported and its sparse entry is not [Invalid]. *)
Definition present (s : SparseSet E) (id : N) : bool :=
  match vat (m_ID_To_Element s) id with
  | Some pos => negb (pos =? InvalidIndex w)
  | None => false
  end.

(** The dense arrays once a value has been placed at position
    [m_CurrentLast]: a slot already allocated is overwritten, otherwise the
    value and the identifier are appended. *)
Definition placed (id : N) (element : E) (s : SparseSet E) : SparseSet E :=
  if m_CurrentLast s <? vsize (m_Elements s)
  then mkSparseSet (m_ID_To_Element s)
         (<[N.to_nat (m_CurrentLast s) := id]> (m_Element_To_ID s))
         (<[N.to_nat (m_CurrentLast s) := element]> (m_Elements s))
         (m_CurrentLast s)
  else mkSparseSet (m_ID_To_Element s)
         (m_Element_To_ID s ++ [id])
         (m_Elements s ++ [element])
         (m_CurrentLast s).

(** The object after [Insert] created an entry. *)
Definition inserted (id : N) (element : E) (s : SparseSet E) : SparseSet E :=
  let p := placed id element s in
  mkSparseSet (<[N.to_nat id := m_CurrentLast s]> (m_ID_To_Element s))
    (m_Element_To_ID p) (m_Elements p) (m_CurrentLast s + 1).
End descriptions.

(** ** Sample objects *)

(** [int] elements: [int()] is [0]. *)
#[global] Instance nat_value_init : ValueInit nat := 0%nat.

(** [SparseSet<uint8_t, int> s(4); s.Insert(1, 10); s.Insert(2, 20);
    s.Insert(3, 30);] *)
Definition three_ids : SparseSet nat :=
  DSCalls.exec U8 [CInsert 1 10%nat; CInsert 2 20%nat; CInsert 3 30%nat]
    (DS.SparseSet_sized U8 4).

(** [SparseSet<uint8_t, int> s(2); s.Insert(0, 7);] *)
Definition one_id : SparseSet nat :=
  DSCalls.exec U8 [CInsert 0 7%nat] (DS.SparseSet_sized U8 2).

(** A [uint8_t] set that supports 255 identifiers and holds them all:
    [s.Insert(i, i)] for [i = 0 .. 254]. *)
Definition all_ids_u8 : SparseSet nat :=
  DSCalls.exec U8 (map (fun i => CInsert (N.of_nat i) i) (seq 0 255))
    (DS.SparseSet_sized U8 255).

(** ... on which [Insert(255, 99)] was then called (it throws), followed
    by [Erase(0)]. *)
Definition overfull_u8 : SparseSet nat :=
  DSCalls.exec U8 [CInsert 255 99%nat; CErase 0] all_ids_u8.

(* ================================================================= *)
(** * Proofs *)

(** ** Arithmetic of the identifier type *)

Lemma modulus_ge_2 w : 2 <= modulus w.
Proof. destruct w; vm_compute; discriminate. Qed.

Lemma InvalidIndex_succ w : InvalidIndex w + 1 = modulus w.
Proof. unfold InvalidIndex. pose proof (modulus_ge_2 w). lia. Qed.

Lemma is_id_le_Invalid w x : is_id w x <-> x <= InvalidIndex w.
Proof. unfold is_id. pose proof (InvalidIndex_succ w). lia. Qed.

Lemma wrap_small w x : x < modulus w -> wrap w x = x.
Proof. intros. unfold wrap. by apply N.mod_small. Qed.

Lemma incr_small w x : x < InvalidIndex w -> incr w x = x + 1.
Proof.
  intros. unfold incr. apply wrap_small.
  pose proof (InvalidIndex_succ w). lia.
Qed.

Lemma decr_pos w x : 0 < x -> x < modulus w -> decr w x = x - 1.
Proof.
  intros H0 Hm. unfold decr, wrap.
  replace (x + modulus w - 1) with ((x - 1) + 1 * modulus w) by lia.
  rewrite N.Div0.mod_add. apply N.mod_small. lia.
Qed.

(** ** std::vector *)

Section vector.
Context {A : Type}.
Implicit Types (v : list A) (i j : N) (x : A).

Lemma vat_Some_lt v i x : vat v i = Some x -> i < vsize v.
Proof. unfold vat, vsize. intros H%lookup_lt_Some. lia. Qed.

Lemma vat_lt v i : i < vsize v -> ∃ x, vat v i = Some x.
Proof.
  unfold vat, vsize. intros H.
  destruct (lookup_lt_is_Some_2 v (N.to_nat i)) as [x Hx]; [lia|eauto].
Qed.

Lemma vat_ge v i : vsize v <= i -> vat v i = None.
Proof. unfold vat, vsize. intros H. apply lookup_ge_None_2. lia. Qed.

Lemma vat_None_ge v i : vat v i = None -> vsize v <= i.
Proof. unfold vat, vsize. intros H%lookup_ge_None_1. lia. Qed.

Lemma vput_lt v i x : i < vsize v -> vput v i x = Some (<[N.to_nat i := x]> v).
Proof. unfold vput. intros H. apply N.ltb_lt in H. by rewrite H. Qed.

Lemma vput_ge v i x : vsize v <= i -> vput v i x = None.
Proof. unfold vput. intros H. apply N.ltb_ge in H. by rewrite H. Qed.

Lemma vsize_insert v (n : nat) x : vsize (<[n := x]> v) = vsize v.
Proof. unfold vsize. by rewrite length_insert. Qed.

Lemma vat_insert_eq v i x : i < vsize v -> vat (<[N.to_nat i := x]> v) i = Some x.
Proof. unfold vat, vsize. intros H. apply list_lookup_insert_eq. lia. Qed.

Lemma vat_insert_ne v i j x : i ≠ j -> vat (<[N.to_nat i := x]> v) j = vat v j.
Proof. unfold vat. intros H. apply list_lookup_insert_ne. lia. Qed.

Lemma vat_snoc_lt v i x : i < vsize v -> vat (v ++ [x]) i = vat v i.
Proof. unfold vat, vsize. intros H. apply lookup_app_l. lia. Qed.

Lemma vat_snoc_eq v x : vat (v ++ [x]) (vsize v) = Some x.
Proof.
  unfold vat, vsize. rewrite Nat2N.id.
  by rewrite (list_lookup_middle v [] x (length v)).
Qed.

Lemma vsize_snoc v x : vsize (v ++ [x]) = vsize v + 1.
Proof. unfold vsize. rewrite length_app. simpl. lia. Qed.

Lemma vsize_resize n x v : vsize (vresize n x v) = n.
Proof. unfold vsize, vresize. rewrite length_resize. lia. Qed.

Lemma vat_resize_old n x v i : i < n -> i < vsize v -> vat (vresize n x v) i = vat v i.
Proof. unfold vat, vresize, vsize. intros. apply lookup_resize; lia. Qed.

Lemma vat_resize_new n x v i : vsize v <= i -> i < n -> vat (vresize n x v) i = Some x.
Proof. unfold vat, vresize, vsize. intros. apply lookup_resize_new; lia. Qed.

Lemma vresize_shrink n x v : n <= vsize v -> vresize n x v = take (N.to_nat n) v.
Proof. unfold vresize, vsize. intros. apply resize_le. lia. Qed.
End vector.

(** ** The member functions of SparseSet.hpp, case by case *)

Ltac run_monad :=
  unfold bind, read, write, ret, at_, assign_at,
         set_ID_To_Element, set_Element_To_ID, set_Elements, set_CurrentLast,
         push_back;
  simpl.

Section hpp_cases.
Context {E : Type} {E0 : ValueInit E} (w : IDWidth).
Implicit Types (s : SparseSet E) (id pos : N) (e : E).

Lemma present_true s id :
  present w s id = true <->
  ∃ pos, vat (m_ID_To_Element s) id = Some pos ∧ pos ≠ InvalidIndex w.
Proof.
  unfold present. destruct (vat _ id) as [pos|]; split.
  - intros H. exists pos. split; [done|]. intros ->.
    by rewrite N.eqb_refl in H.
  - intros (pos' & [= <-] & Hne). by apply negb_true_iff, N.eqb_neq.
  - done.
  - by intros (? & ? & _).
Qed.

Lemma present_false s id :
  present w s id = false <->
  vsize (m_ID_To_Element s) <= id ∨ vat (m_ID_To_Element s) id = Some (InvalidIndex w).
Proof.
  unfold present. destruct (vat _ id) as [pos|] eqn:Hat; split.
  - intros H%negb_false_iff%N.eqb_eq. right. by subst.
  - intros [Hge|[= ->]].
    + apply vat_Some_lt in Hat. lia.
    + by rewrite N.eqb_refl.
  - intros _. left. by apply vat_None_ge.
  - done.
Qed.

Lemma Exists_eq id s : DS.Exists w id s = (Returned (present w s id), s).
Proof.
  unfold DS.Exists, present. run_monad.
  destruct (N.leb_spec (vsize (m_ID_To_Element s)) id) as [Hge|Hlt].
  - by rewrite vat_ge.
  - destruct (vat_lt _ _ Hlt) as [pos ->]. done.
Qed.

Lemma Insert_present id e s :
  present w s id = true -> DS.Insert w id e s = (Returned tt, s).
Proof. intros H. unfold DS.Insert, bind at 1. by rewrite Exists_eq, H. Qed.

Lemma Insert_move_present id e s :
  present w s id = true -> DS.Insert_move w id e s = (Returned false, s).
Proof. intros H. unfold DS.Insert_move, bind at 1. by rewrite Exists_eq, H. Qed.

(** The outcome of the sparse-table write that ends the insertion. *)
Lemma Insert_absent id e s :
  length (m_Element_To_ID s) = length (m_Elements s) ->
  present w s id = false ->
  DS.Insert w id e s =
    if id <? vsize (m_ID_To_Element s)
    then (Returned tt,
          mkSparseSet (<[N.to_nat id := m_CurrentLast s]> (m_ID_To_Element s))
            (m_Element_To_ID (placed id e s)) (m_Elements (placed id e s))
            (incr w (m_CurrentLast s)))
    else (OutOfRange, placed id e s).
Proof.
  intros Hlen Hp. unfold DS.Insert, bind at 1. rewrite Exists_eq, Hp. simpl.
  unfold placed. run_monad.
  destruct (N.ltb_spec (m_CurrentLast s) (vsize (m_Elements s))) as [Hlt|Hge].
  - rewrite (vput_lt (m_Elements s)) by done. simpl.
    rewrite (vput_lt (m_Element_To_ID s)) by (unfold vsize in *; lia). simpl.
    unfold vput. simpl. by destruct (id <? vsize (m_ID_To_Element s)).
  - unfold vput. simpl. by destruct (id <? vsize (m_ID_To_Element s)).
Qed.

Lemma Insert_move_absent id e s :
  length (m_Element_To_ID s) = length (m_Elements s) ->
  present w s id = false ->
  DS.Insert_move w id e s =
    if id <? vsize (m_ID_To_Element s)
    then (Returned true,
          mkSparseSet (<[N.to_nat id := m_CurrentLast s]> (m_ID_To_Element s))
            (m_Element_To_ID (placed id e s)) (m_Elements (placed id e s))
            (incr w (m_CurrentLast s)))
    else (OutOfRange, placed id e s).
Proof.
  intros Hlen Hp. unfold DS.Insert_move, bind at 1. rewrite Exists_eq, Hp. simpl.
  unfold placed. run_monad.
  destruct (N.ltb_spec (m_CurrentLast s) (vsize (m_Elements s))) as [Hlt|Hge].
  - rewrite (vput_lt (m_Elements s)) by done. simpl.
    rewrite (vput_lt (m_Element_To_ID s)) by (unfold vsize in *; lia). simpl.
    unfold vput. simpl. by destruct (id <? vsize (m_ID_To_Element s)).
  - unfold vput. simpl. by destruct (id <? vsize (m_ID_To_Element s)).
Qed.

Lemma Erase_absent id s :
  present w s id = false -> DS.Erase w id s = (Returned false, s).
Proof. intros H. unfold DS.Erase, bind at 1. by rewrite Exists_eq, H. Qed.

(** Erasing the entry in the last live slot: nothing is moved. *)
Lemma Erase_last id s :
  vat (m_ID_To_Element s) id = Some (decr w (m_CurrentLast s)) ->
  decr w (m_CurrentLast s) ≠ InvalidIndex w ->
  DS.Erase w id s =
    (Returned true,
     mkSparseSet (<[N.to_nat id := InvalidIndex w]> (m_ID_To_Element s))
       (m_Element_To_ID s) (m_Elements s) (decr w (m_CurrentLast s))).
Proof.
  intros Hat Hne. unfold DS.Erase, bind at 1. rewrite Exists_eq.
  replace (present w s id) with true
    by (symmetry; apply present_true; eauto).
  simpl. run_monad. rewrite Hat, N.eqb_refl. simpl.
  by rewrite (vput_lt (m_ID_To_Element s)) by (by eapply vat_Some_lt).
Qed.

(** Erasing an entry that is not in the last live slot: the last live
    value and identifier are moved into the vacated slot. *)
Lemma Erase_swap id s removedPos movedId v :
  vat (m_ID_To_Element s) id = Some removedPos ->
  removedPos ≠ InvalidIndex w ->
  removedPos ≠ decr w (m_CurrentLast s) ->
  vat (m_Elements s) (decr w (m_CurrentLast s)) = Some v ->
  vat (m_Element_To_ID s) (decr w (m_CurrentLast s)) = Some movedId ->
  removedPos < vsize (m_Elements s) ->
  removedPos < vsize (m_Element_To_ID s) ->
  movedId < vsize (m_ID_To_Element s) ->
  DS.Erase w id s =
    (Returned true,
     mkSparseSet
       (<[N.to_nat id := InvalidIndex w]>
          (<[N.to_nat movedId := removedPos]> (m_ID_To_Element s)))
       (<[N.to_nat removedPos := movedId]> (m_Element_To_ID s))
       (<[N.to_nat removedPos := v]> (m_Elements s))
       (decr w (m_CurrentLast s))).
Proof.
  intros Hat Hne Hlast Hv Hmoved He Hi Hm.
  unfold DS.Erase, bind at 1. rewrite Exists_eq.
  replace (present w s id) with true
    by (symmetry; apply present_true; eauto).
  simpl. run_monad. rewrite Hat.
  apply N.eqb_neq in Hlast. rewrite Hlast. simpl.
  rewrite Hv. rewrite (vput_lt (m_Elements s)) by done. simpl.
  rewrite Hmoved. rewrite (vput_lt (m_ID_To_Element s)) by done. simpl.
  rewrite (vput_lt (m_Element_To_ID s)) by done. simpl.
  rewrite vput_lt; [done|].
  rewrite vsize_insert. by eapply vat_Some_lt.
Qed.

Lemma Get_eq id s :
  DS.Get id s =
    (match vat (m_ID_To_Element s) id with
     | Some pos => match vat (m_Elements s) pos with
                   | Some v => Returned v
                   | None => OutOfRange
                   end
     | None => OutOfRange
     end, s).
Proof.
  unfold DS.Get. run_monad.
  destruct (vat (m_ID_To_Element s) id) as [pos|]; [|done].
  by destruct (vat (m_Elements s) pos).
Qed.

Lemma GetIfExists_eq id s :
  DS.GetIfExists w id s =
    if present w s id then
      (match vat (m_ID_To_Element s) id with
       | Some pos => match vat (m_Elements s) pos with
                     | Some v => Returned (Some v)
                     | None => OutOfRange
                     end
       | None => OutOfRange
       end, s)
    else (Returned None, s).
Proof.
  unfold DS.GetIfExists, bind at 1. rewrite Exists_eq.
  destruct (present w s id); [|done]. run_monad.
  destruct (vat (m_ID_To_Element s) id) as [pos|]; [|done].
  by destruct (vat (m_Elements s) pos).
Qed.

Lemma Reserve_eq n s :
  DS.Reserve w n s =
    (Returned tt,
     if vsize (m_ID_To_Element s) <? n
     then set_ID_To_Element (vresize n (InvalidIndex w) (m_ID_To_Element s)) s
     else s).
Proof.
  unfold DS.Reserve. run_monad.
  by destruct (vsize (m_ID_To_Element s) <? n).
Qed.

Lemma ShrinkToFit_eq s :
  DS.ShrinkToFit s =
    (Returned tt,
     mkSparseSet (m_ID_To_Element s)
       (vresize (m_CurrentLast s) 0 (m_Element_To_ID s))
       (vresize (m_CurrentLast s) value_init (m_Elements s))
       (m_CurrentLast s)).
Proof. done. Qed.
End hpp_cases.

(** ** Counting the live sparse slots *)

Section live_slots.
Context (w : IDWidth).
Implicit Types (sparse : list N) (i : nat) (x y : N).

Lemma live_slots_middle sparse1 sparse2 x :
  live_slots w (sparse1 ++ x :: sparse2) =
  (live_slots w sparse1 + (if decide (x ≠ InvalidIndex w) then 1 else 0)
   + live_slots w sparse2)%nat.
Proof.
  unfold live_slots. rewrite filter_app, length_app, filter_cons.
  case_decide; simpl; lia.
Qed.

Lemma live_slots_insert sparse i x y :
  sparse !! i = Some x ->
  (live_slots w (<[i := y]> sparse) + (if decide (x ≠ InvalidIndex w) then 1 else 0)
   = live_slots w sparse + (if decide (y ≠ InvalidIndex w) then 1 else 0))%nat.
Proof.
  intros Hx. rewrite insert_take_drop by (by eapply lookup_lt_Some).
  rewrite <- (take_drop_middle sparse i x Hx) at 3.
  rewrite !live_slots_middle. lia.
Qed.

Lemma live_slots_insert_new sparse i y :
  sparse !! i = Some (InvalidIndex w) -> y ≠ InvalidIndex w ->
  live_slots w (<[i := y]> sparse) = S (live_slots w sparse).
Proof.
  intros Hx Hy. pose proof (live_slots_insert sparse i _ y Hx) as H.
  rewrite decide_False in H by (by intros []).
  rewrite decide_True in H by done. lia.
Qed.

Lemma live_slots_insert_same sparse i x y :
  sparse !! i = Some x -> x ≠ InvalidIndex w -> y ≠ InvalidIndex w ->
  live_slots w (<[i := y]> sparse) = live_slots w sparse.
Proof.
  intros Hx Hxl Hy. pose proof (live_slots_insert sparse i _ y Hx) as H.
  rewrite !decide_True in H by done. lia.
Qed.

Lemma live_slots_insert_Invalid sparse i x :
  sparse !! i = Some x -> x ≠ InvalidIndex w ->
  S (live_slots w (<[i := InvalidIndex w]> sparse)) = live_slots w sparse.
Proof.
  intros Hx Hxl. pose proof (live_slots_insert sparse i _ (InvalidIndex w) Hx) as H.
  rewrite decide_True in H by done.
  rewrite decide_False in H by (by intros []). lia.
Qed.

Lemma live_slots_le sparse : (live_slots w sparse <= length sparse)%nat.
Proof. apply length_filter. Qed.

Lemma live_slots_lt sparse i :
  sparse !! i = Some (InvalidIndex w) ->
  (live_slots w sparse < length sparse)%nat.
Proof.
  intros H. apply (length_filter_lt _ _ (InvalidIndex w)).
  - apply list_elem_of_lookup. eauto.
  - by intros [].
Qed.

Lemma live_slots_replicate sparse (n : nat) :
  live_slots w (sparse ++ replicate n (InvalidIndex w)) = live_slots w sparse.
Proof.
  unfold live_slots. rewrite filter_app, length_app.
  assert (filter (λ pos, pos ≠ InvalidIndex w) (replicate n (InvalidIndex w)) = [])
    as ->; [|simpl; lia].
  induction n as [|n IH]; [done|]. simpl.
  rewrite filter_cons, decide_False by (by intros []). done.
Qed.
End live_slots.

(** ** The class invariant is kept *)

Ltac fields := cbn [m_ID_To_Element m_Element_To_ID m_Elements m_CurrentLast].

Ltac wf_split :=
  split; unfold sparse_to_dense, dense_to_sparse in *; fields.

Section wf_preserved.
Context {E : Type} {E0 : ValueInit E} (w : IDWidth).
Implicit Types (s : SparseSet E) (id pos : N) (e : E).

Lemma wf_count_le s :
  wf w s -> m_CurrentLast s <= vsize (m_ID_To_Element s).
Proof.
  intros Hwf. rewrite (wf_count w s Hwf). unfold vsize.
  pose proof (live_slots_le w (m_ID_To_Element s)). lia.
Qed.

Lemma wf_count_is_id s : wf w s -> m_CurrentLast s <= InvalidIndex w.
Proof.
  intros Hwf. pose proof (wf_count_le s Hwf). pose proof (wf_support w s Hwf). lia.
Qed.

(** With an absent supported identifier the set is not full. *)
Lemma wf_count_lt s id :
  wf w s -> vat (m_ID_To_Element s) id = Some (InvalidIndex w) ->
  m_CurrentLast s < InvalidIndex w.
Proof.
  intros Hwf Hat. rewrite (wf_count w s Hwf).
  pose proof (live_slots_lt w (m_ID_To_Element s) _ Hat).
  pose proof (wf_support w s Hwf). unfold vsize in *. lia.
Qed.

Lemma wf_present_pos s id :
  wf w s -> present w s id = true ->
  ∃ pos, vat (m_ID_To_Element s) id = Some pos ∧ pos ≠ InvalidIndex w ∧
         pos < m_CurrentLast s ∧ vat (m_Element_To_ID s) pos = Some id ∧
         ∃ v, vat (m_Elements s) pos = Some v.
Proof.
  intros Hwf (pos & Hat & Hne)%present_true.
  destruct (wf_sparse w s Hwf id pos Hat Hne) as [Hlt Hid].
  exists pos. repeat split; try done.
  apply vat_lt. pose proof (wf_dense_cap w s Hwf). lia.
Qed.

Lemma wf_construct c : ctor_ok w c -> wf w (DSCalls.construct (E:=E) w c).
Proof.
  intros Hc. destruct c as [|n]; simpl in Hc.
  - split; simpl; try done.
    + unfold vsize. simpl. lia.
    + intros pos. simpl. lia.
  - unfold DSCalls.construct, DS.SparseSet_sized.
    assert (vresize n (InvalidIndex w) [] = replicate (N.to_nat n) (InvalidIndex w))
      as -> by apply resize_nil.
    apply is_id_le_Invalid in Hc.
    split; cbn [m_ID_To_Element m_Element_To_ID m_Elements m_CurrentLast].
    + unfold vsize. rewrite length_replicate. lia.
    + change (replicate (N.to_nat n) (InvalidIndex w))
        with ([] ++ replicate (N.to_nat n) (InvalidIndex w)).
      by rewrite live_slots_replicate.
    + done.
    + unfold vsize. simpl. lia.
    + intros id pos Hat Hne. unfold vat in Hat.
      apply lookup_replicate_1 in Hat as [-> _]. done.
    + intros pos. cbn. lia.
Qed.

Lemma wf_placed s id e : wf w s -> wf w (placed id e s).
Proof.
  intros [Hsup Hcnt Hlen Hcap Hsd Hds]. unfold placed.
  destruct (N.ltb_spec (m_CurrentLast s) (vsize (m_Elements s))) as [Hlt|Hge];
    wf_split; try done.
  - by rewrite !length_insert.
  - by rewrite vsize_insert.
  - intros id' pos Hat Hne. destruct (Hsd id' pos Hat Hne) as [Hp Hid].
    split; [done|]. rewrite vat_insert_ne; [done|lia].
  - intros pos Hp. destruct (Hds pos Hp) as (id' & Hid & Hat).
    exists id'. split; [|done]. rewrite vat_insert_ne; [done|lia].
  - rewrite !length_app. simpl. lia.
  - rewrite vsize_snoc. lia.
  - intros id' pos Hat Hne. destruct (Hsd id' pos Hat Hne) as [Hp Hid].
    split; [done|]. rewrite vat_snoc_lt; [done|by eapply vat_Some_lt].
  - intros pos Hp. destruct (Hds pos Hp) as (id' & Hid & Hat).
    exists id'. split; [|done]. rewrite vat_snoc_lt; [done|by eapply vat_Some_lt].
Qed.

Lemma placed_at_count s id e :
  length (m_Element_To_ID s) = length (m_Elements s) ->
  m_CurrentLast s <= vsize (m_Elements s) ->
  vat (m_Element_To_ID (placed id e s)) (m_CurrentLast s) = Some id ∧
  vat (m_Elements (placed id e s)) (m_CurrentLast s) = Some e.
Proof.
  intros Hlen Hcap. unfold placed.
  assert (vsize (m_Element_To_ID s) = vsize (m_Elements s)) as Hv
    by (unfold vsize; lia).
  destruct (N.ltb_spec (m_CurrentLast s) (vsize (m_Elements s))) as [Hlt|Hge]; simpl.
  - split; apply vat_insert_eq; lia.
  - assert (m_CurrentLast s = vsize (m_Elements s)) as Heq by lia.
    split.
    + rewrite Heq, <- Hv. apply vat_snoc_eq.
    + rewrite Heq. apply vat_snoc_eq.
Qed.

Lemma placed_below_count s id e pos :
  length (m_Element_To_ID s) = length (m_Elements s) ->
  m_CurrentLast s <= vsize (m_Elements s) ->
  pos < m_CurrentLast s ->
  vat (m_Element_To_ID (placed id e s)) pos = vat (m_Element_To_ID s) pos ∧
  vat (m_Elements (placed id e s)) pos = vat (m_Elements s) pos.
Proof.
  intros Hlen Hcap Hpos. unfold placed.
  assert (vsize (m_Element_To_ID s) = vsize (m_Elements s)) as Hv
    by (unfold vsize; lia).
  destruct (N.ltb_spec (m_CurrentLast s) (vsize (m_Elements s))) as [Hlt|Hge]; simpl.
  - split; apply vat_insert_ne; lia.
  - split; apply vat_snoc_lt; lia.
Qed.

Lemma wf_inserted s id e :
  wf w s -> vat (m_ID_To_Element s) id = Some (InvalidIndex w) ->
  wf w (inserted id e s).
Proof.
  intros Hwf Habs. pose proof (wf_count_lt s id Hwf Habs) as Hfull.
  pose proof (wf_placed s id e Hwf) as [_ _ Hlen' Hcap' _ _].
  destruct Hwf as [Hsup Hcnt Hlen Hcap Hsd Hds].
  pose proof (placed_at_count s id e Hlen Hcap) as [Hpi Hpe].
  assert (m_CurrentLast (placed id e s) = m_CurrentLast s) as Hpc
    by (unfold placed; by destruct (_ <? _)).
  assert (m_CurrentLast s < vsize (m_Elements (placed id e s))) as Hroom
    by (by eapply vat_Some_lt).
  unfold inserted. wf_split.
  - by rewrite vsize_insert.
  - rewrite (live_slots_insert_new w _ _ _ Habs) by lia. lia.
  - done.
  - lia.
  - intros id' pos Hat Hne. destruct (decide (id' = id)) as [->|Hid].
    + rewrite vat_insert_eq in Hat by (by eapply vat_Some_lt).
      injection Hat as <-. split; [lia|done].
    + rewrite vat_insert_ne in Hat by done.
      destruct (Hsd id' pos Hat Hne) as [Hp Hi]. split; [lia|].
      by rewrite (proj1 (placed_below_count s id e pos Hlen Hcap Hp)).
  - intros pos Hp. destruct (decide (pos = m_CurrentLast s)) as [->|Hpos].
    + exists id. split; [done|]. apply vat_insert_eq. by eapply vat_Some_lt.
    + assert (pos < m_CurrentLast s) as Hp' by lia.
      destruct (Hds pos Hp') as (id' & Hi & Hat).
      exists id'. split.
      * by rewrite (proj1 (placed_below_count s id e pos Hlen Hcap Hp')).
      * rewrite vat_insert_ne; [done|]. intros ->. rewrite Habs in Hat.
        injection Hat as <-. lia.
Qed.

Lemma wf_erased_last s id :
  wf w s -> vat (m_ID_To_Element s) id = Some (m_CurrentLast s - 1) ->
  0 < m_CurrentLast s ->
  wf w (mkSparseSet (<[N.to_nat id := InvalidIndex w]> (m_ID_To_Element s))
          (m_Element_To_ID s) (m_Elements s) (m_CurrentLast s - 1)).
Proof.
  intros Hwf Hat Hpos. pose proof (wf_count_is_id s Hwf) as Hcid.
  destruct Hwf as [Hsup Hcnt Hlen Hcap Hsd Hds].
  assert (m_CurrentLast s - 1 ≠ InvalidIndex w) as Hne by lia.
  destruct (Hsd id _ Hat Hne) as [_ Hid].
  wf_split.
  - by rewrite vsize_insert.
  - pose proof (live_slots_insert_Invalid w _ _ _ Hat Hne). lia.
  - done.
  - lia.
  - intros id' pos Hat' Hne'. destruct (decide (id' = id)) as [->|Hdiff].
    + rewrite vat_insert_eq in Hat' by (by eapply vat_Some_lt). congruence.
    + rewrite vat_insert_ne in Hat' by done.
      destruct (Hsd id' pos Hat' Hne') as [Hp Hi]. split; [|done].
      assert (pos ≠ m_CurrentLast s - 1) by congruence. lia.
  - intros pos Hp. destruct (Hds pos) as (id' & Hi & Hat'); [lia|].
    exists id'. split; [done|]. rewrite vat_insert_ne; [done|].
    intros ->. rewrite Hat in Hat'. injection Hat' as <-. lia.
Qed.

Lemma wf_erased_swap s id removedPos movedId v :
  wf w s ->
  vat (m_ID_To_Element s) id = Some removedPos ->
  removedPos ≠ InvalidIndex w ->
  removedPos ≠ m_CurrentLast s - 1 ->
  vat (m_Element_To_ID s) (m_CurrentLast s - 1) = Some movedId ->
  wf w (mkSparseSet
          (<[N.to_nat id := InvalidIndex w]>
             (<[N.to_nat movedId := removedPos]> (m_ID_To_Element s)))
          (<[N.to_nat removedPos := movedId]> (m_Element_To_ID s))
          (<[N.to_nat removedPos := v]> (m_Elements s))
          (m_CurrentLast s - 1)).
Proof.
  intros Hwf Hat Hne Hnl Hmoved. pose proof (wf_count_is_id s Hwf) as Hcid.
  destruct Hwf as [Hsup Hcnt Hlen Hcap Hsd Hds].
  destruct (Hsd id _ Hat Hne) as [Hrlt Hrid].
  destruct (Hds (m_CurrentLast s - 1)) as (movedId' & Hm' & Hmat); [lia|].
  assert (movedId' = movedId) as -> by congruence.
  assert (movedId ≠ id) as Hmid by congruence.
  assert (m_CurrentLast s - 1 ≠ InvalidIndex w) as Hlne by lia.
  assert (vsize (m_Element_To_ID s) = vsize (m_Elements s)) as Hv
    by (unfold vsize; lia).
  wf_split.
  - by rewrite !vsize_insert.
  - assert (vat (<[N.to_nat movedId := removedPos]> (m_ID_To_Element s)) id
            = Some removedPos) as Hat2 by (by rewrite vat_insert_ne).
    pose proof (live_slots_insert_Invalid w _ _ _ Hat2 Hne).
    pose proof (live_slots_insert_same w _ _ _ removedPos Hmat Hlne Hne). lia.
  - by rewrite !length_insert.
  - rewrite vsize_insert. lia.
  - intros id' pos Hat' Hne'. destruct (decide (id' = id)) as [->|Hdiff].
    + rewrite vat_insert_eq in Hat'; [congruence|].
      rewrite vsize_insert. by eapply vat_Some_lt.
    + rewrite vat_insert_ne in Hat' by done.
      destruct (decide (id' = movedId)) as [->|Hdiff2].
      * rewrite vat_insert_eq in Hat' by (by eapply vat_Some_lt).
        injection Hat' as <-. split; [lia|].
        apply vat_insert_eq. lia.
      * rewrite vat_insert_ne in Hat' by done.
        destruct (Hsd id' pos Hat' Hne') as [Hp Hi].
        assert (pos ≠ m_CurrentLast s - 1) by congruence.
        assert (pos ≠ removedPos) by congruence.
        split; [lia|]. by rewrite vat_insert_ne.
  - intros pos Hp. destruct (decide (pos = removedPos)) as [->|Hdiff].
    + exists movedId. split; [apply vat_insert_eq; lia|].
      rewrite vat_insert_ne by done. apply vat_insert_eq. by eapply vat_Some_lt.
    + destruct (Hds pos) as (id' & Hi & Hat'); [lia|].
      exists id'. split; [by rewrite vat_insert_ne|].
      rewrite !vat_insert_ne; [done| |]; intros ->.
      * rewrite Hmat in Hat'. injection Hat' as <-. lia.
      * congruence.
Qed.

Lemma wf_reserved s n :
  wf w s -> is_id w n -> vsize (m_ID_To_Element s) < n ->
  wf w (set_ID_To_Element (vresize n (InvalidIndex w) (m_ID_To_Element s)) s).
Proof.
  intros [Hsup Hcnt Hlen Hcap Hsd Hds] Hn Hgrow. unfold set_ID_To_Element.
  assert (vresize n (InvalidIndex w) (m_ID_To_Element s) =
          m_ID_To_Element s ++
          replicate (N.to_nat n - length (m_ID_To_Element s)) (InvalidIndex w))
    as Hres.
  { unfold vresize, vsize in *. rewrite resize_ge by lia. done. }
  wf_split; try done.
  - rewrite vsize_resize. by apply is_id_le_Invalid.
  - by rewrite Hres, live_slots_replicate.
  - intros id pos Hat Hne.
    destruct (N.lt_ge_cases id (vsize (m_ID_To_Element s))) as [Hold|Hnew].
    + rewrite vat_resize_old in Hat by lia. by apply Hsd.
    + pose proof (vat_Some_lt _ _ _ Hat) as Hlt. rewrite vsize_resize in Hlt.
      rewrite vat_resize_new in Hat by done. congruence.
  - intros pos Hp. destruct (Hds pos Hp) as (id & Hi & Hat).
    exists id. split; [done|].
    rewrite vat_resize_old; [done| |by eapply vat_Some_lt].
    apply vat_Some_lt in Hat. lia.
Qed.

Lemma wf_shrunk s :
  wf w s ->
  wf w (mkSparseSet (m_ID_To_Element s)
          (vresize (m_CurrentLast s) 0 (m_Element_To_ID s))
          (vresize (m_CurrentLast s) value_init (m_Elements s))
          (m_CurrentLast s)).
Proof.
  intros [Hsup Hcnt Hlen Hcap Hsd Hds].
  assert (vsize (m_Element_To_ID s) = vsize (m_Elements s)) as Hv
    by (unfold vsize; lia).
  wf_split; try done.
  - unfold vresize. by rewrite !length_resize.
  - rewrite vsize_resize. lia.
  - intros id pos Hat Hne. destruct (Hsd id pos Hat Hne) as [Hp Hi].
    split; [done|]. rewrite vat_resize_old; [done|done|lia].
  - intros pos Hp. destruct (Hds pos Hp) as (id & Hi & Hat).
    exists id. split; [|done]. rewrite vat_resize_old; [done|done|lia].
Qed.
End wf_preserved.

(** ** The member functions on a consistent object *)

Section hpp_wf.
Context {E : Type} {E0 : ValueInit E} (w : IDWidth).
Implicit Types (s : SparseSet E) (id pos : N) (e : E).

Lemma wf_decr s : wf w s -> 0 < m_CurrentLast s ->
  decr w (m_CurrentLast s) = m_CurrentLast s - 1.
Proof.
  intros Hwf Hpos. apply decr_pos; [done|].
  pose proof (wf_count_is_id w s Hwf). pose proof (InvalidIndex_succ w). lia.
Qed.

Lemma Insert_wf_absent s id e :
  wf w s -> vat (m_ID_To_Element s) id = Some (InvalidIndex w) ->
  DS.Insert w id e s = (Returned tt, inserted id e s).
Proof.
  intros Hwf Hat. rewrite Insert_absent.
  - pose proof (vat_Some_lt _ _ _ Hat) as Hlt. apply N.ltb_lt in Hlt.
    rewrite Hlt. unfold inserted.
    by rewrite (incr_small w _ (wf_count_lt w s id Hwf Hat)).
  - by apply (wf_dense_len w s).
  - apply present_false. by right.
Qed.

Lemma Insert_move_wf_absent s id e :
  wf w s -> vat (m_ID_To_Element s) id = Some (InvalidIndex w) ->
  DS.Insert_move w id e s = (Returned true, inserted id e s).
Proof.
  intros Hwf Hat. rewrite Insert_move_absent.
  - pose proof (vat_Some_lt _ _ _ Hat) as Hlt. apply N.ltb_lt in Hlt.
    rewrite Hlt. unfold inserted.
    by rewrite (incr_small w _ (wf_count_lt w s id Hwf Hat)).
  - by apply (wf_dense_len w s).
  - apply present_false. by right.
Qed.

Lemma Insert_wf_unsupported s id e :
  wf w s -> vsize (m_ID_To_Element s) <= id ->
  DS.Insert w id e s = (OutOfRange, placed id e s).
Proof.
  intros Hwf Hge. rewrite Insert_absent.
  - apply N.ltb_ge in Hge. by rewrite Hge.
  - by apply (wf_dense_len w s).
  - apply present_false. by left.
Qed.

Lemma Insert_move_wf_unsupported s id e :
  wf w s -> vsize (m_ID_To_Element s) <= id ->
  DS.Insert_move w id e s = (OutOfRange, placed id e s).
Proof.
  intros Hwf Hge. rewrite Insert_move_absent.
  - apply N.ltb_ge in Hge. by rewrite Hge.
  - by apply (wf_dense_len w s).
  - apply present_false. by left.
Qed.

Lemma Erase_wf_last s id :
  wf w s -> vat (m_ID_To_Element s) id = Some (m_CurrentLast s - 1) ->
  0 < m_CurrentLast s ->
  DS.Erase w id s =
    (Returned true,
     mkSparseSet (<[N.to_nat id := InvalidIndex w]> (m_ID_To_Element s))
       (m_Element_To_ID s) (m_Elements s) (m_CurrentLast s - 1)).
Proof.
  intros Hwf Hat Hpos. pose proof (wf_count_is_id w s Hwf).
  rewrite <- (wf_decr s Hwf Hpos) in *.
  apply Erase_last; [done|]. rewrite wf_decr by done. lia.
Qed.

Lemma Erase_wf_swap s id removedPos :
  wf w s -> vat (m_ID_To_Element s) id = Some removedPos ->
  removedPos ≠ InvalidIndex w -> removedPos ≠ m_CurrentLast s - 1 ->
  ∃ movedId v,
    vat (m_Element_To_ID s) (m_CurrentLast s - 1) = Some movedId ∧
    vat (m_Elements s) (m_CurrentLast s - 1) = Some v ∧
    movedId ≠ id ∧
    vat (m_ID_To_Element s) movedId = Some (m_CurrentLast s - 1) ∧
    DS.Erase w id s =
      (Returned true,
       mkSparseSet
         (<[N.to_nat id := InvalidIndex w]>
            (<[N.to_nat movedId := removedPos]> (m_ID_To_Element s)))
         (<[N.to_nat removedPos := movedId]> (m_Element_To_ID s))
         (<[N.to_nat removedPos := v]> (m_Elements s))
         (m_CurrentLast s - 1)).
Proof.
  intros Hwf Hat Hne Hnl.
  destruct (wf_sparse w s Hwf id _ Hat Hne) as [Hrlt Hrid].
  assert (0 < m_CurrentLast s) as Hpos by lia.
  destruct (wf_dense w s Hwf (m_CurrentLast s - 1)) as (movedId & Hm & Hmat); [lia|].
  pose proof (wf_dense_cap w s Hwf) as Hcap.
  pose proof (wf_dense_len w s Hwf) as Hlen.
  destruct (vat_lt (m_Elements s) (m_CurrentLast s - 1)) as [v Hv]; [lia|].
  exists movedId, v. repeat split; try done.
  - congruence.
  - rewrite <- (wf_decr s Hwf Hpos) in *.
    apply Erase_swap; try done.
    + lia.
    + unfold vsize in *. lia.
    + by eapply vat_Some_lt.
Qed.

(** Every call leaves a consistent object consistent, whether it returns
    or throws. *)
Lemma call_wf c s :
  wf w s -> call_ok w c -> wf w (snd (DSCalls.call w c s)).
Proof.
  intros Hwf Hc.
  destruct c as [id e|id e|id|id|id|id| |n| |]; simpl in Hc;
    unfold DSCalls.call.
  - destruct (present w s id) eqn:Hp.
    + by rewrite Insert_present.
    + apply present_false in Hp as [Hge|Hat].
      * rewrite Insert_wf_unsupported by done. simpl. by apply wf_placed.
      * rewrite Insert_wf_absent by done. simpl. by apply wf_inserted.
  - destruct (present w s id) eqn:Hp.
    + by rewrite Insert_move_present.
    + apply present_false in Hp as [Hge|Hat].
      * rewrite Insert_move_wf_unsupported by done. simpl. by apply wf_placed.
      * rewrite Insert_move_wf_absent by done. simpl. by apply wf_inserted.
  - destruct (present w s id) eqn:Hp.
    + apply present_true in Hp as (pos & Hat & Hne).
      destruct (wf_sparse w s Hwf id pos Hat Hne) as [Hlt _].
      destruct (decide (pos = m_CurrentLast s - 1)) as [->|Hnl].
      * rewrite Erase_wf_last by (done || lia). simpl.
        apply wf_erased_last; (done || lia).
      * destruct (Erase_wf_swap s id pos Hwf Hat Hne Hnl)
          as (movedId & v & Hm & Hv & _ & _ & ->). simpl.
        by apply wf_erased_swap.
    + by rewrite Erase_absent.
  - rewrite Get_eq. by repeat case_match.
  - rewrite GetIfExists_eq. by repeat case_match.
  - by rewrite Exists_eq.
  - rewrite ShrinkToFit_eq. simpl. by apply wf_shrunk.
  - rewrite Reserve_eq. simpl.
    destruct (N.ltb_spec (vsize (m_ID_To_Element s)) n); [|done].
    by apply wf_reserved.
  - done.
  - done.
Qed.

Lemma exec_snoc calls c s :
  DSCalls.exec w (calls ++ [c]) s =
  snd (DSCalls.call w c (DSCalls.exec w calls s)).
Proof. unfold DSCalls.exec. by rewrite foldl_app. Qed.

Lemma exec_wf calls s :
  wf w s -> Forall (call_ok w) calls -> wf w (DSCalls.exec w calls s).
Proof.
  intros Hwf. induction calls as [|c calls IH] using rev_ind; [done|].
  intros [Hcalls Hc%Forall_inv]%Forall_app. rewrite exec_snoc.
  apply call_wf; auto.
Qed.
End hpp_wf.

(** ** The arrays represent the set of the specification *)

Section hpp_represents.
Context {E : Type} {E0 : ValueInit E} (w : IDWidth).
Implicit Types (s : SparseSet E) (m : Model E) (id pos : N) (e : E).

Lemma placed_sparse s id e :
  m_ID_To_Element (placed id e s) = m_ID_To_Element s.
Proof. unfold placed. by destruct (_ <? _). Qed.

Lemma placed_count s id e : m_CurrentLast (placed id e s) = m_CurrentLast s.
Proof. unfold placed. by destruct (_ <? _). Qed.

Lemma stored_absent s id : present w s id = false -> stored w s id = None.
Proof.
  unfold present, stored. destruct (vat _ id) as [pos|]; [|done].
  intros H%negb_false_iff. by rewrite H.
Qed.

Lemma stored_present s id pos :
  vat (m_ID_To_Element s) id = Some pos -> pos ≠ InvalidIndex w ->
  stored w s id = vat (m_Elements s) pos.
Proof.
  intros Hat Hne. unfold stored. rewrite Hat.
  apply N.eqb_neq in Hne. by rewrite Hne.
Qed.

Lemma stored_is_Some s id :
  wf w s -> present w s id = true -> ∃ v, stored w s id = Some v.
Proof.
  intros Hwf Hp.
  destruct (wf_present_pos w s id Hwf Hp) as (pos & Hat & Hne & _ & _ & v & Hv).
  exists v. by rewrite (stored_present s id pos).
Qed.

Lemma stored_placed s id e id' :
  wf w s -> stored w (placed id e s) id' = stored w s id'.
Proof.
  intros Hwf. unfold stored.
  assert (m_ID_To_Element (placed id e s) = m_ID_To_Element s) as ->
    by (unfold placed; by destruct (_ <? _)).
  destruct (vat (m_ID_To_Element s) id') as [pos|] eqn:Hat; [|done].
  destruct (N.eqb_spec pos (InvalidIndex w)) as [|Hne]; [done|].
  destruct (wf_sparse w s Hwf id' pos Hat Hne) as [Hlt _].
  apply placed_below_count; [apply (wf_dense_len w s Hwf)|apply (wf_dense_cap w s Hwf)|done].
Qed.

Lemma stored_inserted s id e id' :
  wf w s -> vat (m_ID_To_Element s) id = Some (InvalidIndex w) ->
  stored w (inserted id e s) id' =
  if decide (id = id') then Some e else stored w s id'.
Proof.
  intros Hwf Habs. pose proof (wf_count_lt w s id Hwf Habs) as Hfull.
  pose proof (wf_dense_len w s Hwf) as Hlen.
  pose proof (wf_dense_cap w s Hwf) as Hcap.
  unfold stored, inserted. fields. case_decide as Hid.
  - subst id'. rewrite vat_insert_eq by (by eapply vat_Some_lt).
    destruct (N.eqb_spec (m_CurrentLast s) (InvalidIndex w)); [lia|].
    apply placed_at_count; done.
  - rewrite vat_insert_ne by done.
    destruct (vat (m_ID_To_Element s) id') as [pos|] eqn:Hat; [|done].
    destruct (N.eqb_spec pos (InvalidIndex w)) as [|Hne]; [done|].
    destruct (wf_sparse w s Hwf id' pos Hat Hne) as [Hlt _].
    apply placed_below_count; done.
Qed.

Lemma stored_erased_last s id id' :
  wf w s -> vat (m_ID_To_Element s) id = Some (m_CurrentLast s - 1) ->
  stored w (mkSparseSet (<[N.to_nat id := InvalidIndex w]> (m_ID_To_Element s))
              (m_Element_To_ID s) (m_Elements s) (m_CurrentLast s - 1)) id' =
  if decide (id = id') then None else stored w s id'.
Proof.
  intros Hwf Hat. unfold stored. fields. case_decide as Hid.
  - subst id'. rewrite vat_insert_eq by (by eapply vat_Some_lt).
    by rewrite N.eqb_refl.
  - by rewrite vat_insert_ne.
Qed.

Lemma stored_erased_swap s id removedPos movedId v id' :
  wf w s ->
  vat (m_ID_To_Element s) id = Some removedPos ->
  removedPos ≠ InvalidIndex w ->
  movedId ≠ id ->
  vat (m_ID_To_Element s) movedId = Some (m_CurrentLast s - 1) ->
  vat (m_Elements s) (m_CurrentLast s - 1) = Some v ->
  stored w (mkSparseSet
              (<[N.to_nat id := InvalidIndex w]>
                 (<[N.to_nat movedId := removedPos]> (m_ID_To_Element s)))
              (<[N.to_nat removedPos := movedId]> (m_Element_To_ID s))
              (<[N.to_nat removedPos := v]> (m_Elements s))
              (m_CurrentLast s - 1)) id' =
  if decide (id = id') then None else stored w s id'.
Proof.
  intros Hwf Hat Hne Hmid Hmat Hv. pose proof (wf_count_is_id w s Hwf) as Hcid.
  destruct (wf_sparse w s Hwf id _ Hat Hne) as [Hrlt Hrid].
  pose proof (wf_dense_cap w s Hwf) as Hcap.
  unfold stored at 1. fields. case_decide as Hid.
  - subst id'. rewrite vat_insert_eq.
    + by rewrite N.eqb_refl.
    + rewrite vsize_insert. by eapply vat_Some_lt.
  - rewrite vat_insert_ne by done.
    destruct (decide (id' = movedId)) as [->|Hdiff].
    + rewrite vat_insert_eq by (by eapply vat_Some_lt).
      apply N.eqb_neq in Hne. rewrite Hne.
      rewrite vat_insert_eq by lia.
      rewrite (stored_present s movedId _ Hmat) by lia. done.
    + rewrite vat_insert_ne by done. unfold stored.
      destruct (vat (m_ID_To_Element s) id') as [pos|] eqn:Hat'; [|done].
      destruct (N.eqb_spec pos (InvalidIndex w)) as [|Hne']; [done|].
      destruct (wf_sparse w s Hwf id' pos Hat' Hne') as [_ Hi].
      rewrite vat_insert_ne; [done|]. congruence.
Qed.

Lemma stored_reserved s n id :
  vsize (m_ID_To_Element s) < n ->
  stored w (set_ID_To_Element (vresize n (InvalidIndex w) (m_ID_To_Element s)) s) id
  = stored w s id.
Proof.
  intros Hgrow. unfold stored, set_ID_To_Element. fields.
  destruct (N.lt_ge_cases id (vsize (m_ID_To_Element s))) as [Hold|Hnew].
  - by rewrite vat_resize_old by lia.
  - rewrite (vat_ge (m_ID_To_Element s)) by done.
    destruct (N.lt_ge_cases id n) as [Hin|Hout].
    + rewrite vat_resize_new by done. by rewrite N.eqb_refl.
    + rewrite vat_ge; [done|]. by rewrite vsize_resize.
Qed.

Lemma stored_shrunk s id :
  wf w s ->
  stored w (mkSparseSet (m_ID_To_Element s)
              (vresize (m_CurrentLast s) 0 (m_Element_To_ID s))
              (vresize (m_CurrentLast s) value_init (m_Elements s))
              (m_CurrentLast s)) id
  = stored w s id.
Proof.
  intros Hwf. unfold stored. fields.
  destruct (vat (m_ID_To_Element s) id) as [pos|] eqn:Hat; [|done].
  destruct (N.eqb_spec pos (InvalidIndex w)) as [|Hne]; [done|].
  destruct (wf_sparse w s Hwf id pos Hat Hne) as [Hlt _].
  pose proof (wf_dense_cap w s Hwf). apply vat_resize_old; lia.
Qed.

Lemma represents_construct c :
  represents w (DSCalls.construct (E:=E) w c) (model_construct c).
Proof.
  destruct c as [|n]; split; simpl; try done.
  - by rewrite vsize_resize.
  - intros id. rewrite lookup_empty. unfold stored. simpl.
    destruct (vat _ id) as [pos|] eqn:Hat; [|done].
    pose proof (vat_Some_lt _ _ _ Hat) as Hlt. rewrite vsize_resize in Hlt.
    rewrite vat_resize_new in Hat by (unfold vsize; simpl; lia).
    injection Hat as <-. by rewrite N.eqb_refl.
Qed.

(** One call on the arrays is one step of the set. *)
Lemma call_represents c s m :
  wf w s -> represents w s m -> call_ok w c ->
  represents w (snd (DSCalls.call w c s)) (model_step c m).
Proof.
  intros Hwf [Hsup Hent] Hc.
  destruct c as [id e|id e|id|id|id|id| |n| |]; simpl in Hc;
    unfold DSCalls.call, model_step.
  - destruct (present w s id) eqn:Hp.
    + rewrite Insert_present by done.
      destruct (stored_is_Some s id Hwf Hp) as [v Hv].
      by rewrite Hent, Hv.
    + rewrite Hent, (stored_absent s id Hp).
      apply present_false in Hp as [Hge|Hat].
      * rewrite Insert_wf_unsupported by done. rewrite Hsup.
        apply N.ltb_ge in Hge. rewrite Hge. split; simpl.
        -- by rewrite placed_sparse.
        -- intros id'. by rewrite stored_placed.
      * rewrite Insert_wf_absent by done. rewrite Hsup.
        pose proof (vat_Some_lt _ _ _ Hat) as Hlt. apply N.ltb_lt in Hlt.
        rewrite Hlt. split; simpl.
        -- by rewrite vsize_insert.
        -- intros id'. rewrite stored_inserted by done.
           rewrite lookup_insert. by case_decide.
  - destruct (present w s id) eqn:Hp.
    + rewrite Insert_move_present by done.
      destruct (stored_is_Some s id Hwf Hp) as [v Hv].
      by rewrite Hent, Hv.
    + rewrite Hent, (stored_absent s id Hp).
      apply present_false in Hp as [Hge|Hat].
      * rewrite Insert_move_wf_unsupported by done. rewrite Hsup.
        apply N.ltb_ge in Hge. rewrite Hge. split; simpl.
        -- by rewrite placed_sparse.
        -- intros id'. by rewrite stored_placed.
      * rewrite Insert_move_wf_absent by done. rewrite Hsup.
        pose proof (vat_Some_lt _ _ _ Hat) as Hlt. apply N.ltb_lt in Hlt.
        rewrite Hlt. split; simpl.
        -- by rewrite vsize_insert.
        -- intros id'. rewrite stored_inserted by done.
           rewrite lookup_insert. by case_decide.
  - destruct (present w s id) eqn:Hp.
    + apply present_true in Hp as (pos & Hat & Hne).
      destruct (wf_sparse w s Hwf id pos Hat Hne) as [Hlt _].
      destruct (decide (pos = m_CurrentLast s - 1)) as [->|Hnl].
      * rewrite Erase_wf_last by (done || lia). split; simpl.
        -- by rewrite vsize_insert.
        -- intros id'. rewrite stored_erased_last by done.
           rewrite lookup_delete. by case_decide.
      * destruct (Erase_wf_swap w s id pos Hwf Hat Hne Hnl)
          as (movedId & v & Hm & Hv & Hmid & Hmat & ->). split; simpl.
        -- by rewrite !vsize_insert.
        -- intros id'.
           rewrite (stored_erased_swap s id pos movedId v id') by done.
           rewrite lookup_delete. by case_decide.
    + rewrite Erase_absent by done. split; simpl; [done|].
      intros id'. rewrite lookup_delete. case_decide; [|done].
      subst id'. by rewrite (stored_absent s id Hp).
  - rewrite Get_eq. by repeat case_match.
  - rewrite GetIfExists_eq. by repeat case_match.
  - by rewrite Exists_eq.
  - rewrite ShrinkToFit_eq. split; simpl; [done|].
    intros id. by rewrite stored_shrunk.
  - rewrite Reserve_eq. simpl.
    destruct (N.ltb_spec (vsize (m_ID_To_Element s)) n) as [Hgrow|Hkeep];
      split; simpl.
    + rewrite vsize_resize. lia.
    + intros id. by rewrite stored_reserved.
    + lia.
    + done.
  - done.
  - done.
Qed.

Lemma model_exec_snoc calls c m :
  model_exec (calls ++ [c]) m = model_step c (model_exec calls m).
Proof. unfold model_exec. by rewrite foldl_app. Qed.

Lemma exec_represents calls s m :
  wf w s -> represents w s m -> Forall (call_ok w) calls ->
  represents w (DSCalls.exec w calls s) (model_exec calls m).
Proof.
  intros Hwf Hrep. induction calls as [|c calls IH] using rev_ind; [done|].
  intros [Hcalls Hc%Forall_inv]%Forall_app.
  rewrite exec_snoc, model_exec_snoc.
  apply call_represents; auto using exec_wf.
Qed.
End hpp_represents.

(** ** SparseSet.h against SparseSet.hpp *)

Section h_vs_hpp.
Context {E : Type} {E0 : ValueInit E} (w : IDWidth).
Implicit Types (s : SparseSet E) (id pos : N) (e : E).

Lemma AZ_Exists_eq id s : AZ.Exists w id s = DS.Exists w id s.
Proof. reflexivity. Qed.

Lemma bind_Exists {B} id (k : bool -> M E B) s :
  bind (DS.Exists w id) k s = k (present w s id) s.
Proof. unfold bind. by rewrite Exists_eq. Qed.

Lemma AZ_Add_eq id e s : AZ.Add w id e s = DS.Insert w id e s.
Proof. reflexivity. Qed.

Lemma AZ_Add_move_eq id e s : AZ.Add_move w id e s = DS.Insert w id e s.
Proof. reflexivity. Qed.

Lemma AZ_Get_eq id s : AZ.Get id s = DS.Get id s.
Proof. reflexivity. Qed.

Lemma AZ_GetIfExists_eq id s : AZ.GetIfExists w id s = DS.GetIfExists w id s.
Proof. reflexivity. Qed.

Lemma AZ_ShrinkToFit_eq s : AZ.ShrinkToFit s = DS.ShrinkToFit s.
Proof. reflexivity. Qed.

Lemma AZ_ExtendTo_eq n s : AZ.ExtendTo w n s = DS.Reserve w n s.
Proof. reflexivity. Qed.

(** [Insert(IDType, ElementType&&)] is [Insert(IDType, const ElementType&)]
    with a [bool] added. *)
Lemma Insert_move_eq id e s :
  DS.Insert_move w id e s =
  (match fst (DS.Insert w id e s) with
   | Returned _ => Returned (negb (present w s id))
   | OutOfRange => OutOfRange
   end, snd (DS.Insert w id e s)).
Proof.
  unfold DS.Insert_move, DS.Insert. rewrite !bind_Exists.
  destruct (present w s id); [done|]. simpl. run_monad.
  repeat (case_match; simplify_eq/=; try done).
Qed.

(** [Remove] is [Erase] without the [bool]. *)
Lemma AZ_Remove_eq id s :
  AZ.Remove w id s =
  (match fst (DS.Erase w id s) with
   | Returned _ => Returned tt
   | OutOfRange => OutOfRange
   end, snd (DS.Erase w id s)).
Proof.
  unfold AZ.Remove, DS.Erase. change (AZ.Exists w id) with (DS.Exists (E:=E) w id).
  rewrite !bind_Exists.
  destruct (present w s id); [|done]. simpl. run_monad.
  repeat (case_match; simplify_eq/=; try done).
Qed.

Lemma Erase_returns id s b s' :
  DS.Erase w id s = (Returned b, s') -> b = present w s id.
Proof.
  unfold DS.Erase. rewrite bind_Exists.
  destruct (present w s id); [|by intros [= <- _]]. simpl. run_monad.
  intros H. repeat (case_match; simplify_eq/=; try done).
Qed.

Lemma AZ_NumSupportedElements_eq s :
  vsize (m_ID_To_Element s) <= InvalidIndex w ->
  AZ.NumSupportedElements w s = DS.NumSupportedElements s.
Proof.
  intros H. unfold AZ.NumSupportedElements, DS.NumSupportedElements. run_monad.
  rewrite wrap_small; [done|]. pose proof (InvalidIndex_succ w). lia.
Qed.

Lemma AZ_construct_eq c : AZCalls.construct (E:=E) w c = DSCalls.construct w c.
Proof. by destruct c. Qed.

(** A call on SparseSet.h leaves the object SparseSet.hpp leaves, and
    shows the caller the same thing, the two [bool] results aside. *)
Lemma AZ_call_eq c s :
  vsize (m_ID_To_Element s) <= InvalidIndex w ->
  AZCalls.call w c s =
  (void_of c (fst (DSCalls.call w c s)), snd (DSCalls.call w c s)).
Proof.
  intros Hsup. destruct c as [id e|id e|id|id|id|id| |n| |];
    unfold AZCalls.call, DSCalls.call.
  - rewrite AZ_Add_eq. by destruct (DS.Insert w id e s) as [[] ?].
  - rewrite AZ_Add_move_eq, Insert_move_eq.
    by destruct (DS.Insert w id e s) as [[] ?].
  - rewrite AZ_Remove_eq. by destruct (DS.Erase w id s) as [[] ?].
  - rewrite AZ_Get_eq. by destruct (DS.Get id s) as [[] ?].
  - rewrite AZ_GetIfExists_eq. by destruct (DS.GetIfExists w id s) as [[] ?].
  - rewrite AZ_Exists_eq, Exists_eq. done.
  - done.
  - rewrite AZ_ExtendTo_eq. by destruct (DS.Reserve w n s) as [[] ?].
  - by rewrite AZ_NumSupportedElements_eq.
  - done.
Qed.

Lemma AZ_exec_eq calls s :
  wf w s -> Forall (call_ok w) calls ->
  AZCalls.exec w calls s = DSCalls.exec w calls s.
Proof.
  intros Hwf. induction calls as [|c calls IH] using rev_ind; [done|].
  intros [Hcalls Hc%Forall_inv]%Forall_app.
  unfold AZCalls.exec, DSCalls.exec in *. rewrite !foldl_app. simpl.
  rewrite IH by done. rewrite AZ_call_eq; [done|].
  apply (wf_support w), exec_wf; done.
Qed.

Lemma AZ_trace_eq calls s :
  wf w s -> Forall (call_ok w) calls ->
  AZCalls.trace w calls s = zip_with void_of calls (DSCalls.trace w calls s).
Proof.
  revert s. induction calls as [|c calls IH]; intros s Hwf Hok; [done|].
  apply Forall_cons in Hok as [Hc Hok]. simpl.
  rewrite AZ_call_eq by (by apply (wf_support w)). simpl.
  f_equal. apply IH; [|done]. by apply call_wf.
Qed.
End h_vs_hpp.

(** Every object built by the default or the sized constructor and used
    through the member functions is consistent, in both classes. *)
Lemma constructed_wf {E : Type} {E0 : ValueInit E} w (c : Ctor) (calls : list (Call E)) :
  ctor_ok w c -> Forall (call_ok w) calls ->
  wf w (DSCalls.exec w calls (DSCalls.construct w c)) ∧
  wf w (AZCalls.exec w calls (AZCalls.construct w c)).
Proof.
  intros Hc Hcalls.
  assert (wf w (DSCalls.exec w calls (DSCalls.construct w c))) as Hwf
    by (apply exec_wf; [by apply wf_construct|done]).
  split; [done|]. rewrite AZ_construct_eq, AZ_exec_eq; [done| |done].
  by apply wf_construct.
Qed.

(* ================================================================= *)
(** * The claims *)

Implicit Types (w : IDWidth) (id pos : N).

(** The identifiers 1, 2 and 3 inserted in that order in a fresh set. *)
Lemma inserted_1_2_3 {E : Type} {E0 : ValueInit E} w n (v1 v2 v3 : E) :
  3 < n -> is_id w n ->
  let s3 := mkSparseSet
      (<[3%nat := 2]> (<[2%nat := 1]> (<[1%nat := 0]>
         (replicate (N.to_nat n) (InvalidIndex w)))))
      [1; 2; 3] [v1; v2; v3] 3 in
  DSCalls.exec w [CInsert 1 v1; CInsert 2 v2; CInsert 3 v3]
    (DS.SparseSet_sized w n) = s3 ∧ wf w s3.
Proof.
  intros Hn Hid.
  pose proof (wf_construct (E:=E) w (CtorSized n) Hid) as Hwf0.
  unfold DSCalls.construct, DS.SparseSet_sized in Hwf0.
  unfold DSCalls.exec, DS.SparseSet_sized. simpl foldl.
  assert (vresize n (InvalidIndex w) [] = replicate (N.to_nat n) (InvalidIndex w))
    as Hrep by apply resize_nil.
  rewrite Hrep in *.
  set (sp0 := replicate (N.to_nat n) (InvalidIndex w)) in *.
  assert (∀ i, i < n -> vat sp0 i = Some (InvalidIndex w)) as Hsp0.
  { intros i Hi. unfold vat, sp0. apply lookup_replicate_2. lia. }
  assert (vsize sp0 = n) as Hsz.
  { unfold vsize, sp0. rewrite length_replicate. lia. }
  rewrite (Insert_wf_absent w _ 1 v1 Hwf0) by (apply Hsp0; lia).
  pose proof (wf_inserted w _ 1 v1 Hwf0 (Hsp0 1 ltac:(lia))) as Hwf1.
  unfold inserted, placed in Hwf1 |- *. simpl in Hwf1 |- *.
  assert (vat (<[1%nat := 0]> sp0) 2 = Some (InvalidIndex w)) as H2.
  { rewrite (vat_insert_ne sp0 1 2) by lia. apply Hsp0. lia. }
  rewrite (Insert_wf_absent w _ 2 v2 Hwf1) by done.
  pose proof (wf_inserted w _ 2 v2 Hwf1 H2) as Hwf2.
  unfold inserted, placed in Hwf2 |- *. simpl in Hwf2 |- *.
  assert (vat (<[2%nat := 1]> (<[1%nat := 0]> sp0)) 3 = Some (InvalidIndex w)) as H3.
  { rewrite (vat_insert_ne _ 2 3), (vat_insert_ne sp0 1 3) by lia. apply Hsp0. lia. }
  rewrite (Insert_wf_absent w _ 3 v3 Hwf2) by done.
  pose proof (wf_inserted w _ 3 v3 Hwf2 H3) as Hwf3.
  unfold inserted, placed in Hwf3 |- *. simpl in Hwf3 |- *.
  done.
Qed.

Lemma InvalidIndex_ge_255 w : 255 <= InvalidIndex w.
Proof. destruct w; vm_compute; discriminate. Qed.

(** C1. On a consistent set in which [id] exists at dense position
    [removedPos], with [lastPos = count - 1]: when [removedPos] is not
    [lastPos], Erase (Remove in SparseSet.h) moves the value at [lastPos]
    into [removedPos], sets the moved identifier's sparse entry to
    [removedPos] and the dense identifier at [removedPos] to the moved
    identifier; when they are equal nothing is moved; in both cases the
    erased identifier's sparse entry becomes Invalid and count goes down by
    one.  In particular, with 1, 2 and 3 inserted in that order in a fresh
    set (dense positions 0, 1, 2), erasing 1 leaves 1 absent, 2 and 3
    present, count 2, and the value of 3 at dense position 0. *)
Theorem C1_Erase_swap_and_pop {E : Type} {E0 : ValueInit E} w (s : SparseSet E)
    id removedPos n (v1 v2 v3 : E) :
  wf w s ->
  vat (m_ID_To_Element s) id = Some removedPos ->
  removedPos ≠ InvalidIndex w ->
  3 < n -> is_id w n ->
  let lastPos := m_CurrentLast s - 1 in
  let s3 := DSCalls.exec w [CInsert 1 v1; CInsert 2 v2; CInsert 3 v3]
              (DS.SparseSet_sized w n) in
  0 < m_CurrentLast s ∧
  (removedPos ≠ lastPos ->
   ∃ movedId v,
     vat (m_Element_To_ID s) lastPos = Some movedId ∧
     vat (m_Elements s) lastPos = Some v ∧
     let s' := mkSparseSet
                 (<[N.to_nat id := InvalidIndex w]>
                    (<[N.to_nat movedId := removedPos]> (m_ID_To_Element s)))
                 (<[N.to_nat removedPos := movedId]> (m_Element_To_ID s))
                 (<[N.to_nat removedPos := v]> (m_Elements s))
                 (m_CurrentLast s - 1) in
     DS.Erase w id s = (Returned true, s') ∧
     AZ.Remove w id s = (Returned tt, s')) ∧
  (removedPos = lastPos ->
   let s' := mkSparseSet
               (<[N.to_nat id := InvalidIndex w]> (m_ID_To_Element s))
               (m_Element_To_ID s) (m_Elements s) (m_CurrentLast s - 1) in
   DS.Erase w id s = (Returned true, s') ∧
   AZ.Remove w id s = (Returned tt, s')) ∧
  (AZCalls.exec w [CInsert 1 v1; CInsert 2 v2; CInsert 3 v3]
     (AZ.SparseSet_sized w n) = s3 ∧
   m_Element_To_ID s3 = [1; 2; 3] ∧
   ∃ s', DS.Erase w 1 s3 = (Returned true, s') ∧
         AZ.Remove w 1 s3 = (Returned tt, s') ∧
         DS.Exists w 1 s' = (Returned false, s') ∧
         DS.Exists w 2 s' = (Returned true, s') ∧
         DS.Exists w 3 s' = (Returned true, s') ∧
         m_CurrentLast s' = 2 ∧
         vat (m_Element_To_ID s') 0 = Some 3 ∧
         vat (m_Elements s') 0 = Some v3 ∧
         DS.Get 3 s' = (Returned v3, s')).
Proof.
  intros Hwf Hat Hne Hn Hid lastPos s3.
  destruct (wf_sparse w s Hwf id _ Hat Hne) as [Hlt _].
  split; [lia|]. split; [|split].
  - intros Hnl.
    destruct (Erase_wf_swap w s id removedPos Hwf Hat Hne Hnl)
      as (movedId & v & Hm & Hv & _ & _ & HErase).
    exists movedId, v. repeat split; try done.
    by rewrite AZ_Remove_eq, HErase.
  - intros ->. simpl.
    rewrite AZ_Remove_eq, Erase_wf_last by (done || lia). done.
  - destruct (inserted_1_2_3 w n v1 v2 v3 Hn Hid) as [Hs3 Hwf3].
    cbv zeta in Hs3. subst s3. split; [|split].
    + unfold AZ.SparseSet_sized. apply AZ_exec_eq.
      * by apply (wf_construct w (CtorSized n)).
      * assert (∀ k, k <= 3 -> is_id w k) as Hsmall.
        { intros k Hk. apply is_id_le_Invalid.
          pose proof (InvalidIndex_ge_255 w). lia. }
        repeat (apply Forall_cons; split; [apply Hsmall; lia|]).
        done.
    + by rewrite Hs3.
    + rewrite Hs3. clear Hs3.
      set (sp0 := replicate (N.to_nat n) (InvalidIndex w)) in *.
      set (sp3 := <[3%nat := 2]> (<[2%nat := 1]> (<[1%nat := 0]> sp0))) in *.
      pose proof (InvalidIndex_ge_255 w) as H255.
      assert (vsize sp0 = n) as Hsz.
      { unfold vsize, sp0. rewrite length_replicate. lia. }
      assert (vsize sp3 = n) as Hsz3.
      { unfold sp3. by rewrite !vsize_insert. }
      assert (vat sp3 1 = Some 0) as H1.
      { unfold sp3. rewrite (vat_insert_ne _ 3 1), (vat_insert_ne _ 2 1) by lia.
        apply (vat_insert_eq sp0 1). lia. }
      assert (vat sp3 2 = Some 1) as H2.
      { unfold sp3. rewrite (vat_insert_ne _ 3 2) by lia.
        apply (vat_insert_eq _ 2). rewrite vsize_insert. lia. }
      destruct (Erase_wf_swap w _ 1 0 Hwf3 H1) as
        (movedId & v & Hm & Hv & _ & _ & HErase); [lia|simpl; lia|].
      simpl in Hm, Hv. injection Hm as <-. injection Hv as <-.
      simpl in HErase.
      eexists. split; [exact HErase|].
      split; [by rewrite AZ_Remove_eq, HErase|].
      set (sp' := <[N.to_nat 1 := InvalidIndex w]> (<[N.to_nat 3 := 0]> sp3)).
      assert (vat sp' 1 = Some (InvalidIndex w)) as H1'.
      { apply vat_insert_eq. rewrite vsize_insert. lia. }
      assert (vat sp' 2 = Some 1) as H2'.
      { unfold sp'. rewrite (vat_insert_ne _ 1 2), (vat_insert_ne _ 3 2) by lia. done. }
      assert (vat sp' 3 = Some 0) as H3'.
      { unfold sp'. rewrite (vat_insert_ne _ 1 3) by lia.
        apply vat_insert_eq. lia. }
      rewrite !Exists_eq, Get_eq. unfold present. fields.
      rewrite H1', H2', H3'.
      assert ((1 =? InvalidIndex w) = false) as -> by (apply N.eqb_neq; lia).
      assert ((0 =? InvalidIndex w) = false) as -> by (apply N.eqb_neq; lia).
      rewrite N.eqb_refl. done.
Qed.

(** C1 at [three_ids]: 1, 2, 3 were inserted in a [uint8_t] set of four
    supported identifiers; 1 sits at dense position 0. *)
Lemma C1_witness :
  DS.Erase U8 1 three_ids =
    (Returned true, mkSparseSet [255; 255; 1; 0] [3; 2; 3] [30; 20; 30]%nat 2).
Proof.
  assert (wf U8 three_ids) as Hwf.
  { apply exec_wf; [by apply (wf_construct U8 (CtorSized 4))|].
    repeat constructor. }
  destruct (C1_Erase_swap_and_pop U8 three_ids 1 0 4 10%nat 20%nat 30%nat Hwf)
    as (_ & Hswap & _); [reflexivity|discriminate|reflexivity|reflexivity|].
  destruct Hswap as (movedId & v & Hm & Hv & HErase & _); [discriminate|].
  vm_compute in Hm, Hv. injection Hm as <-. injection Hv as <-.
  exact HErase.
Defined.

Lemma invariants_of_wf {E : Type} w (s : SparseSet E) (m : Model E) :
  wf w s -> represents w s m -> invariant1 w s m ∧ invariant2 s.
Proof.
  intros Hwf [_ Hent]. split; [|apply (wf_dense w s Hwf)].
  intros id pos Hat Hne.
  destruct (wf_sparse w s Hwf id pos Hat Hne) as [Hlt Hid].
  split; [done|]. split; [done|].
  destruct (vat_lt (m_Elements s) pos) as [v Hv].
  { pose proof (wf_dense_cap w s Hwf). lia. }
  exists v. split; [|done].
  by rewrite Hent, (stored_present w s id pos Hat Hne).
Qed.

(** C2, where the code departs from it.  In SparseSet.h,
    [SparseSet<uint8_t, int> a(2); a.Add(0, 7);] and then the public copy
    constructor, [SparseSet<uint8_t, int> b(a);] (or the move constructor):
    in [b] the sparse entry of identifier 0 is 0, which is not Invalid,
    and count is 0, so invariant 1, which asks [pos < count], does not
    hold after this construction, whatever the identifiers' current values
    are.  The implicit copy constructor of SparseSet.hpp copies count as
    well and keeps both invariants. *)
Theorem C2_copy_constructor_breaks_invariant1 :
  AZCalls.exec U8 [CInsert 0 7%nat] (AZCalls.construct U8 (CtorSized 2)) = one_id ∧
  (let b := AZ.SparseSet_copy one_id in
   AZ.GetIfExists U8 0 one_id = (Returned (Some 7%nat), one_id) ∧
   vat (m_ID_To_Element b) 0 = Some 0 ∧
   0 ≠ InvalidIndex U8 ∧
   m_CurrentLast b = 0 ∧
   ∀ m : Model nat, ¬ invariant1 U8 b m) ∧
  (∀ m : Model nat, ¬ invariant1 U8 (AZ.SparseSet_move one_id) m) ∧
  (let b := DS.SparseSet_copy one_id in
   m_CurrentLast b = 1 ∧
   invariant1 U8 b (model_exec [CInsert 0 7%nat] (model_construct (CtorSized 2))) ∧
   invariant2 b).
Proof.
  assert (∀ m : Model nat, ¬ invariant1 U8 (AZ.SparseSet_copy one_id) m) as Hbroken.
  { intros m H. destruct (H 0 0) as [Hlt _]; [reflexivity|discriminate|].
    simpl in Hlt. lia. }
  split; [reflexivity|]. split; [|split].
  - repeat split; try reflexivity; [discriminate|exact Hbroken].
  - exact Hbroken.
  - split; [reflexivity|].
    change (DS.SparseSet_copy one_id) with one_id.
    apply invariants_of_wf.
    + apply exec_wf; [by apply (wf_construct U8 (CtorSized 2))|repeat constructor].
    + apply (exec_represents U8 [CInsert 0 7%nat] _ (model_construct (CtorSized 2))).
      * by apply (wf_construct U8 (CtorSized 2)).
      * apply (represents_construct U8 (CtorSized 2)).
      * repeat constructor.
Qed.

(** X18.  After the default or the sized constructor and after every
    further call of Insert/Add, Erase/Remove, Get, GetIfExists, Exists,
    Reserve/ExtendTo, ShrinkToFit, NumSupportedElements and GetData,
    returning or throwing, both consistency invariants hold in both
    classes: a sparse entry [pos] that is not Invalid satisfies
    [pos < count], the dense identifier at [pos] is the identifier, and
    the dense element at [pos] is the identifier's current value in the
    set; and every [pos < count] is the sparse entry of the dense
    identifier at [pos]. *)
Theorem X18_invariants_after_every_call {E : Type} {E0 : ValueInit E} w
    (c : Ctor) (calls : list (Call E)) :
  ctor_ok w c -> Forall (call_ok w) calls ->
  let m := model_exec calls (model_construct c) in
  let s := DSCalls.exec w calls (DSCalls.construct w c) in
  let s_h := AZCalls.exec w calls (AZCalls.construct w c) in
  (invariant1 w s m ∧ invariant2 s) ∧ (invariant1 w s_h m ∧ invariant2 s_h).
Proof.
  intros Hc Hcalls m s s_h.
  assert (invariant1 w s m ∧ invariant2 s) as Hs.
  { apply invariants_of_wf.
    - apply exec_wf; [by apply wf_construct|done].
    - apply exec_represents; [by apply wf_construct|apply represents_construct|done]. }
  split; [done|]. subst s_h. rewrite AZ_construct_eq, AZ_exec_eq; [done| |done].
  by apply wf_construct.
Qed.

(** X18 on a [uint8_t] set of four identifiers, through insertions, an
    erasure, an insertion and a lookup that throw, a shrink and a
    growth. *)
Lemma X18_witness :
  let calls := [CInsert 1 10; CInsert 2 20; CInsert 3 30; CErase 1;
                CInsert 9 5; CGet 1; CShrinkToFit; CReserve 8]%nat in
  let m := model_exec calls (model_construct (CtorSized 4)) in
  let s := DSCalls.exec U8 calls (DSCalls.construct U8 (CtorSized 4)) in
  let s_h := AZCalls.exec U8 calls (AZCalls.construct U8 (CtorSized 4)) in
  (invariant1 U8 s m ∧ invariant2 s) ∧ (invariant1 U8 s_h m ∧ invariant2 s_h).
Proof.
  apply (X18_invariants_after_every_call U8 (CtorSized 4)).
  - reflexivity.
  - repeat constructor.
Defined.

(** A fresh entry is read back. *)
Lemma inserted_read {E : Type} w (s : SparseSet E) id (e : E) :
  wf w s -> vat (m_ID_To_Element s) id = Some (InvalidIndex w) ->
  present w (inserted id e s) id = true ∧
  DS.Get id (inserted id e s) = (Returned e, inserted id e s).
Proof.
  intros Hwf Hat. pose proof (wf_count_lt w s id Hwf Hat) as Hfull.
  assert (vat (m_ID_To_Element (inserted id e s)) id = Some (m_CurrentLast s)) as Hnew.
  { unfold inserted. fields. apply vat_insert_eq. by eapply vat_Some_lt. }
  split.
  - apply present_true. exists (m_CurrentLast s). split; [done|lia].
  - rewrite Get_eq, Hnew. unfold inserted at 1. fields.
    destruct (placed_at_count s id e (wf_dense_len w s Hwf) (wf_dense_cap w s Hwf))
      as [_ ->]. done.
Qed.

Lemma Exists_true {E : Type} w (s : SparseSet E) id :
  DS.Exists w id s = (Returned true, s) <-> present w s id = true.
Proof. rewrite Exists_eq. split; [by intros [= ->]|by intros ->]. Qed.

Lemma Exists_false {E : Type} w (s : SparseSet E) id :
  DS.Exists w id s = (Returned false, s) <-> present w s id = false.
Proof. rewrite Exists_eq. split; [by intros [= ->]|by intros ->]. Qed.

Lemma supported_absent {E : Type} w (s : SparseSet E) id :
  present w s id = false -> id < vsize (m_ID_To_Element s) ->
  vat (m_ID_To_Element s) id = Some (InvalidIndex w).
Proof. intros [Hge|Hat]%present_false Hlt; [lia|done]. Qed.

(** C3. Insert (copy and move overload; Add in SparseSet.h) on an
    identifier that exists returns without changing the object: no value is
    overwritten, count and every entry stay as they are.  In particular,
    on a consistent set that supports [id0] and does not hold it,
    [Insert(id0, v1); Insert(id0, v2)] leaves [Get(id0) == v1]. *)
Theorem C3_Insert_existing_is_noop {E : Type} {E0 : ValueInit E} w
    (s : SparseSet E) id (v : E) (s0 : SparseSet E) id0 (v1 v2 : E) :
  DS.Exists w id s = (Returned true, s) ->
  wf w s0 ->
  id0 < vsize (m_ID_To_Element s0) ->
  DS.Exists w id0 s0 = (Returned false, s0) ->
  (DS.Insert w id v s = (Returned tt, s) ∧
   DS.Insert_move w id v s = (Returned false, s) ∧
   AZ.Add w id v s = (Returned tt, s) ∧
   AZ.Add_move w id v s = (Returned tt, s)) ∧
  (let s2 := after (DS.Insert w id0 v2 (after (DS.Insert w id0 v1 s0))) in
   DS.Get id0 s2 = (Returned v1, s2)) ∧
  (let s2 := after (DS.Insert_move w id0 v2 (after (DS.Insert_move w id0 v1 s0))) in
   DS.Get id0 s2 = (Returned v1, s2)) ∧
  (let s2 := after (AZ.Add w id0 v2 (after (AZ.Add w id0 v1 s0))) in
   AZ.Get id0 s2 = (Returned v1, s2)).
Proof.
  intros Hex%Exists_true Hwf Hsup Habs%Exists_false.
  pose proof (supported_absent w s0 id0 Habs Hsup) as Hat.
  destruct (inserted_read w s0 id0 v1 Hwf Hat) as [Hp HGet].
  change (@AZ.Add) with (@DS.Insert). change (@AZ.Add_move) with (@DS.Insert).
  change (@AZ.Get) with (@DS.Get).
  split; [|split; [|split]].
  - by rewrite Insert_present, Insert_move_present.
  - rewrite (Insert_wf_absent w s0 id0 v1 Hwf Hat). unfold after at 2. simpl snd.
    by rewrite Insert_present.
  - rewrite (Insert_move_wf_absent w s0 id0 v1 Hwf Hat). unfold after at 2. simpl snd.
    by rewrite Insert_move_present.
  - rewrite (Insert_wf_absent w s0 id0 v1 Hwf Hat). unfold after at 2. simpl snd.
    by rewrite Insert_present.
Qed.

(** C3 on [one_id], which holds identifier 0 with value 7 and supports
    identifier 1 without holding it. *)
Lemma C3_witness :
  DS.Insert U8 0 8%nat one_id = (Returned tt, one_id) ∧
  (let s2 := after (DS.Insert U8 1 6%nat (after (DS.Insert U8 1 5%nat one_id))) in
   DS.Get 1 s2 = (Returned 5%nat, s2)).
Proof.
  assert (wf U8 one_id) as Hwf.
  { apply exec_wf; [by apply (wf_construct U8 (CtorSized 2))|].
    repeat constructor. }
  destruct (C3_Insert_existing_is_noop U8 one_id 0 8%nat one_id 1 5%nat 6%nat)
    as ((H1 & _) & H2 & _); [reflexivity|exact Hwf|reflexivity|reflexivity|].
  split; [exact H1|exact H2].
Defined.

Lemma Erase_wf_present {E : Type} w (s : SparseSet E) id :
  wf w s -> present w s id = true -> fst (DS.Erase w id s) = Returned true.
Proof.
  intros Hwf (pos & Hat & Hne)%present_true.
  destruct (wf_sparse w s Hwf id pos Hat Hne) as [Hlt _].
  destruct (decide (pos = m_CurrentLast s - 1)) as [->|Hnl].
  - by rewrite Erase_wf_last by (done || lia).
  - by destruct (Erase_wf_swap w s id pos Hwf Hat Hne Hnl)
      as (movedId & v & _ & _ & _ & _ & ->).
Qed.

(** C4, as the code has it.  For an identifier that does not exist, Erase
    returns [false] and Remove returns; neither changes the object, so
    count, Exists for every identifier and every stored value are as
    before.  For an identifier that exists in a consistent set Erase
    returns [true].  Remove returns [void] in both cases. *)
Theorem C4_Erase_absent_is_noop {E : Type} {E0 : ValueInit E} w
    (s : SparseSet E) id (s1 : SparseSet E) id1 :
  DS.Exists w id s = (Returned false, s) ->
  wf w s1 ->
  DS.Exists w id1 s1 = (Returned true, s1) ->
  DS.Erase w id s = (Returned false, s) ∧
  AZ.Remove w id s = (Returned tt, s) ∧
  outcome (DS.Erase w id1 s1) = Returned true ∧
  outcome (AZ.Remove w id1 s1) = Returned tt.
Proof.
  intros Habs%Exists_false Hwf Hex%Exists_true.
  pose proof (Erase_wf_present w s1 id1 Hwf Hex) as Htrue.
  repeat split.
  - by apply Erase_absent.
  - by rewrite AZ_Remove_eq, Erase_absent.
  - done.
  - unfold outcome. by rewrite AZ_Remove_eq, Htrue.
Qed.

(** C4 on [one_id]: identifier 1 is absent, identifier 0 exists. *)
Lemma C4_witness :
  DS.Erase U8 1 one_id = (Returned false, one_id) ∧
  AZ.Remove U8 1 one_id = (Returned tt, one_id) ∧
  outcome (DS.Erase U8 0 one_id) = Returned true ∧
  outcome (AZ.Remove U8 0 one_id) = Returned tt.
Proof.
  apply (C4_Erase_absent_is_noop U8 one_id 1 one_id 0).
  - reflexivity.
  - apply exec_wf; [by apply (wf_construct U8 (CtorSized 2))|].
    repeat constructor.
  - reflexivity.
Defined.

(** C4 as stated fails for SparseSet.h: [Remove] returns [void], so what
    it returns for the absent identifier 1 and for the existing
    identifier 0 is the same and indicates neither failure nor success. *)
Lemma C4_Remove_has_no_indicator :
  AZ.Exists U8 1 one_id = (Returned false, one_id) ∧
  AZ.Exists U8 0 one_id = (Returned true, one_id) ∧
  outcome (AZ.Remove U8 1 one_id) = Returned tt ∧
  outcome (AZ.Remove U8 0 one_id) = Returned tt ∧
  ¬ (outcome (AZ.Remove U8 1 one_id) ≠ outcome (AZ.Remove U8 0 one_id)).
Proof. repeat split. intros H. by apply H. Qed.

(** Exists returns on every object and every identifier, changes nothing,
    and answers [false] for an identifier that is not supported. *)
Lemma Exists_never_fails {E : Type} w (s : SparseSet E) id :
  DS.Exists w id s = (Returned (present w s id), s) ∧
  AZ.Exists w id s = (Returned (present w s id), s) ∧
  (vsize (m_ID_To_Element s) <= id -> present w s id = false) ∧
  (id < vsize (m_ID_To_Element s) ->
   present w s id = negb (bool_decide (vat (m_ID_To_Element s) id = Some (InvalidIndex w)))).
Proof.
  change (@AZ.Exists) with (@DS.Exists). rewrite Exists_eq.
  repeat split.
  - intros Hge. apply present_false. by left.
  - intros Hlt. destruct (vat_lt _ _ Hlt) as [pos Hat].
    unfold present. rewrite Hat. f_equal.
    destruct (N.eqb_spec pos (InvalidIndex w)) as [->|Hne].
    + by rewrite bool_decide_eq_true_2.
    + rewrite bool_decide_eq_false_2; [done|]. by intros [= ->].
Qed.

(** On a consistent set GetIfExists returns, changes nothing, and is empty
    exactly for the identifiers that do not exist. *)
Lemma GetIfExists_never_fails {E : Type} w (s : SparseSet E) id :
  wf w s ->
  DS.GetIfExists w id s = (Returned (stored w s id), s) ∧
  AZ.GetIfExists w id s = (Returned (stored w s id), s) ∧
  (present w s id = false -> stored w s id = None) ∧
  (present w s id = true -> is_Some (stored w s id)).
Proof.
  intros Hwf. change (@AZ.GetIfExists) with (@DS.GetIfExists).
  rewrite GetIfExists_eq. destruct (present w s id) eqn:Hp.
  - destruct (wf_present_pos w s id Hwf Hp) as (pos & Hat & Hne & _ & _ & v & Hv).
    rewrite (stored_present w s id pos Hat Hne), Hat, Hv. by repeat split; eauto.
  - rewrite (stored_absent w s id Hp). by repeat split.
Qed.

(** Get throws for an identifier that does not exist as long as the dense
    element array has no slot at index InvalidIndex. *)
Lemma Get_absent_throws {E : Type} w (s : SparseSet E) id :
  present w s id = false ->
  vsize (m_Elements s) <= InvalidIndex w ->
  DS.Get id s = (OutOfRange, s) ∧ AZ.Get id s = (OutOfRange, s).
Proof.
  intros Hp Hlen. change (@AZ.Get) with (@DS.Get). rewrite Get_eq.
  apply present_false in Hp as [Hge|Hat].
  - by rewrite vat_ge.
  - by rewrite Hat, vat_ge.
Qed.

(** As long as Insert is not given the reserved identifier, the dense
    element array never gets a slot at index InvalidIndex. *)
Lemma call_dense_bound {E : Type} {E0 : ValueInit E} w (c : Call E) (s : SparseSet E) :
  wf w s -> call_ok w c -> no_sentinel w c ->
  vsize (m_Elements s) <= InvalidIndex w ->
  vsize (m_Elements (snd (DSCalls.call w c s))) <= InvalidIndex w.
Proof.
  intros Hwf Hc Hns Hlen.
  assert (∀ id (e : E), is_id w id -> id ≠ InvalidIndex w ->
            vsize (m_ID_To_Element s) <= id ->
            vsize (m_Elements (placed id e s)) <= InvalidIndex w) as Hplaced.
  { intros id e Hid Hne Hge. unfold placed.
    destruct (N.ltb_spec (m_CurrentLast s) (vsize (m_Elements s))); fields.
    - by rewrite vsize_insert.
    - rewrite vsize_snoc. apply is_id_le_Invalid in Hid.
      pose proof (wf_count_le w s Hwf). pose proof (wf_dense_cap w s Hwf). lia. }
  assert (∀ id (e : E), vat (m_ID_To_Element s) id = Some (InvalidIndex w) ->
            vsize (m_Elements (inserted id e s)) <= InvalidIndex w) as Hinserted.
  { intros id e Hat. pose proof (wf_count_lt w s id Hwf Hat).
    unfold inserted, placed.
    destruct (N.ltb_spec (m_CurrentLast s) (vsize (m_Elements s))); fields.
    - by rewrite vsize_insert.
    - rewrite vsize_snoc. pose proof (wf_dense_cap w s Hwf). lia. }
  destruct c as [id e|id e|id|id|id|id| |n| |]; simpl in Hc, Hns;
    unfold DSCalls.call.
  - destruct (present w s id) eqn:Hp.
    + by rewrite Insert_present.
    + apply present_false in Hp as [Hge|Hat].
      * rewrite Insert_wf_unsupported by done. by apply Hplaced.
      * rewrite Insert_wf_absent by done. by apply Hinserted.
  - destruct (present w s id) eqn:Hp.
    + by rewrite Insert_move_present.
    + apply present_false in Hp as [Hge|Hat].
      * rewrite Insert_move_wf_unsupported by done. by apply Hplaced.
      * rewrite Insert_move_wf_absent by done. by apply Hinserted.
  - destruct (present w s id) eqn:Hp.
    + apply present_true in Hp as (pos & Hat & Hne).
      destruct (wf_sparse w s Hwf id pos Hat Hne) as [Hlt _].
      destruct (decide (pos = m_CurrentLast s - 1)) as [->|Hnl].
      * by rewrite Erase_wf_last by (done || lia).
      * destruct (Erase_wf_swap w s id pos Hwf Hat Hne Hnl)
          as (movedId & v & _ & _ & _ & _ & ->). simpl. by rewrite vsize_insert.
    + by rewrite Erase_absent.
  - rewrite Get_eq. by repeat case_match.
  - rewrite GetIfExists_eq. by repeat case_match.
  - by rewrite Exists_eq.
  - rewrite ShrinkToFit_eq. simpl. rewrite vsize_resize.
    by apply wf_count_is_id.
  - rewrite Reserve_eq. simpl. by destruct (_ <? _).
  - done.
  - done.
Qed.

(** On a set built and used without the reserved identifier, Get on an
    identifier that does not exist throws. *)
Lemma Get_absent_throws_without_sentinel {E : Type} {E0 : ValueInit E} w
    (c : Ctor) (calls : list (Call E)) id :
  ctor_ok w c -> Forall (call_ok w) calls -> Forall (no_sentinel w) calls ->
  let s := DSCalls.exec w calls (DSCalls.construct w c) in
  present w s id = false ->
  DS.Get id s = (OutOfRange, s) ∧ AZ.Get id s = (OutOfRange, s).
Proof.
  intros Hc Hcalls Hns s Hp. apply (Get_absent_throws w); [done|].
  subst s. clear Hp.
  induction calls as [|call calls IH] using rev_ind.
  - destruct c; unfold vsize; simpl; lia.
  - apply Forall_app in Hcalls as [Hcalls Hcall%Forall_inv].
    apply Forall_app in Hns as [Hns Hn%Forall_inv].
    rewrite exec_snoc. apply call_dense_bound; auto.
    apply exec_wf; [by apply wf_construct|done].
Qed.

(** C5, where the code departs from it.  [SparseSet<uint8_t, int> s(255)];
    [s.Insert(i, i)] for [i = 0 .. 254]; [s.Insert(255, 99)] throws after
    appending 99 as the 256th dense element; [s.Erase(0)] returns [true].
    Identifier 0 now does not exist (Exists is [false], GetIfExists is
    empty), its sparse entry is 255, and [Get(0)] returns the stale 99
    instead of throwing; the object is unchanged by the three queries. *)
Theorem C5_Get_absent_returns_stale_element :
  DSCalls.trace U8 (map (fun i => CInsert (N.of_nat i) i) (seq 0 255))
    (DS.SparseSet_sized U8 255) = replicate 255 OVoid ∧
  DSCalls.trace U8 [CInsert 255 99%nat; CErase 0] all_ids_u8 = [OThrow; OBool true] ∧
  DS.Exists U8 0 overfull_u8 = (Returned false, overfull_u8) ∧
  DS.GetIfExists U8 0 overfull_u8 = (Returned None, overfull_u8) ∧
  DS.GetElementIndex 0 overfull_u8 = (Returned (InvalidIndex U8), overfull_u8) ∧
  vsize (m_Elements overfull_u8) = 256 ∧
  DS.Get 0 overfull_u8 = (Returned 99%nat, overfull_u8) ∧
  AZ.Get 0 overfull_u8 = (Returned 99%nat, overfull_u8).
Proof. vm_compute. by repeat split. Qed.

(** No call shortens the sparse table of a consistent set. *)
Lemma call_support_mono {E : Type} {E0 : ValueInit E} w (c : Call E) (s : SparseSet E) :
  wf w s -> call_ok w c ->
  vsize (m_ID_To_Element s) <= vsize (m_ID_To_Element (snd (DSCalls.call w c s))).
Proof.
  intros Hwf Hc.
  destruct c as [id e|id e|id|id|id|id| |n| |]; simpl in Hc;
    unfold DSCalls.call.
  - destruct (present w s id) eqn:Hp.
    + by rewrite Insert_present.
    + apply present_false in Hp as [Hge|Hat].
      * rewrite Insert_wf_unsupported by done. simpl. by rewrite placed_sparse.
      * rewrite Insert_wf_absent by done. simpl. by rewrite vsize_insert.
  - destruct (present w s id) eqn:Hp.
    + by rewrite Insert_move_present.
    + apply present_false in Hp as [Hge|Hat].
      * rewrite Insert_move_wf_unsupported by done. simpl. by rewrite placed_sparse.
      * rewrite Insert_move_wf_absent by done. simpl. by rewrite vsize_insert.
  - destruct (present w s id) eqn:Hp.
    + apply present_true in Hp as (pos & Hat & Hne).
      destruct (wf_sparse w s Hwf id pos Hat Hne) as [Hlt _].
      destruct (decide (pos = m_CurrentLast s - 1)) as [->|Hnl].
      * rewrite Erase_wf_last by (done || lia). simpl. by rewrite vsize_insert.
      * destruct (Erase_wf_swap w s id pos Hwf Hat Hne Hnl)
          as (movedId & v & _ & _ & _ & _ & ->). simpl. by rewrite !vsize_insert.
    + by rewrite Erase_absent.
  - rewrite Get_eq. by repeat case_match.
  - rewrite GetIfExists_eq. by repeat case_match.
  - by rewrite Exists_eq.
  - by rewrite ShrinkToFit_eq.
  - rewrite Reserve_eq. simpl.
    destruct (N.ltb_spec (vsize (m_ID_To_Element s)) n); [|done].
    simpl. rewrite vsize_resize. lia.
  - done.
  - done.
Qed.

Lemma exec_support_mono {E : Type} {E0 : ValueInit E} w (calls : list (Call E))
    (s : SparseSet E) :
  wf w s -> Forall (call_ok w) calls ->
  vsize (m_ID_To_Element s) <= vsize (m_ID_To_Element (DSCalls.exec w calls s)).
Proof.
  intros Hwf. induction calls as [|c calls IH] using rev_ind; [done|].
  intros [Hcalls Hc%Forall_inv]%Forall_app. rewrite exec_snoc.
  etrans; [by apply IH|]. apply call_support_mono; [by apply exec_wf|done].
Qed.

(** C6.  Reserve (ExtendTo in SparseSet.h) with argument [n] returns and
    leaves a sparse table of [max size n] slots, so identifiers [0, n) are
    supported; the slots that were there keep their entry, the new ones
    hold Invalid and are reported absent; the other members are untouched,
    and nothing at all changes when [n] is not greater than the former
    size.  Over any sequence of calls on a constructed set,
    NumSupportedElements never decreases. *)
Theorem C6_Reserve_grows_never_shrinks {E : Type} {E0 : ValueInit E} w
    (s : SparseSet E) n (c : Ctor) (calls more : list (Call E)) :
  ctor_ok w c -> Forall (call_ok w) calls -> Forall (call_ok w) more ->
  (let s' := after (DS.Reserve w n s) in
   DS.Reserve w n s = (Returned tt, s') ∧
   AZ.ExtendTo w n s = (Returned tt, s') ∧
   vsize (m_ID_To_Element s') = N.max (vsize (m_ID_To_Element s)) n ∧
   (∀ id, id < vsize (m_ID_To_Element s) ->
      vat (m_ID_To_Element s') id = vat (m_ID_To_Element s) id) ∧
   (∀ id, vsize (m_ID_To_Element s) <= id -> id < n ->
      vat (m_ID_To_Element s') id = Some (InvalidIndex w) ∧
      DS.Exists w id s' = (Returned false, s')) ∧
   m_Element_To_ID s' = m_Element_To_ID s ∧
   m_Elements s' = m_Elements s ∧
   m_CurrentLast s' = m_CurrentLast s ∧
   (n <= vsize (m_ID_To_Element s) -> s' = s)) ∧
  (let s1 := DSCalls.exec w calls (DSCalls.construct w c) in
   let s2 := DSCalls.exec w more s1 in
   ∃ k1 k2, DS.NumSupportedElements s1 = (Returned k1, s1) ∧
            DS.NumSupportedElements s2 = (Returned k2, s2) ∧ k1 <= k2) ∧
  (let s1 := AZCalls.exec w calls (AZCalls.construct w c) in
   let s2 := AZCalls.exec w more s1 in
   ∃ k1 k2, AZ.NumSupportedElements w s1 = (Returned k1, s1) ∧
            AZ.NumSupportedElements w s2 = (Returned k2, s2) ∧ k1 <= k2).
Proof.
  intros Hc Hcalls Hmore.
  assert (wf w (DSCalls.exec w calls (DSCalls.construct w c))) as Hwf1
    by (apply exec_wf; [by apply wf_construct|done]).
  pose proof (exec_wf w more _ Hwf1 Hmore) as Hwf2.
  pose proof (exec_support_mono w more _ Hwf1 Hmore) as Hmono.
  split; [|split].
  - change (@AZ.ExtendTo) with (@DS.Reserve). rewrite Reserve_eq.
    unfold after. simpl snd.
    destruct (N.ltb_spec (vsize (m_ID_To_Element s)) n) as [Hgrow|Hkeep].
    + unfold set_ID_To_Element. fields. repeat split; try done.
      * rewrite vsize_resize. lia.
      * intros id Hid. apply vat_resize_old; lia.
      * by apply vat_resize_new.
      * rewrite Exists_eq. replace (present w _ id) with false; [done|].
        symmetry. apply present_false. right. fields. by apply vat_resize_new.
      * lia.
    + repeat split; try done.
      * lia.
      * lia.
      * lia.
  - simpl. eexists _, _. split; [done|]. split; [done|]. done.
  - simpl. rewrite AZ_construct_eq, !AZ_exec_eq; try done;
      [|by apply wf_construct].
    rewrite !AZ_NumSupportedElements_eq by (by apply (wf_support w)).
    eexists _, _. split; [done|]. split; [done|]. done.
Qed.

(** C6 on [three_ids] (four supported identifiers) with [Reserve(6)], and
    along two runs of calls on a [uint8_t] set built for two
    identifiers. *)
Lemma C6_witness :
  m_ID_To_Element (after (DS.Reserve U8 6 three_ids)) = [255; 0; 1; 2; 255; 255] ∧
  ∃ k1 k2,
    DS.NumSupportedElements
      (DSCalls.exec U8 [CInsert 0 7%nat; CReserve 5] (DSCalls.construct U8 (CtorSized 2)))
      = (Returned k1,
         DSCalls.exec U8 [CInsert 0 7%nat; CReserve 5] (DSCalls.construct U8 (CtorSized 2))) ∧
    DS.NumSupportedElements
      (DSCalls.exec U8 [CReserve 3; CErase 0; CShrinkToFit]
         (DSCalls.exec U8 [CInsert 0 7%nat; CReserve 5] (DSCalls.construct U8 (CtorSized 2))))
      = (Returned k2,
         DSCalls.exec U8 [CReserve 3; CErase 0; CShrinkToFit]
           (DSCalls.exec U8 [CInsert 0 7%nat; CReserve 5] (DSCalls.construct U8 (CtorSized 2)))) ∧
    k1 <= k2.
Proof.
  destruct (C6_Reserve_grows_never_shrinks U8 three_ids 6 (CtorSized 2)
              [CInsert 0 7%nat; CReserve 5] [CReserve 3; CErase 0; CShrinkToFit])
    as (_ & Hmono & _).
  - reflexivity.
  - repeat constructor.
  - repeat constructor.
  - split; [reflexivity|exact Hmono].
Defined.

(** C7.  On a consistent set ShrinkToFit returns, leaves the sparse table
    and count as they are, and cuts the two dense arrays down to their
    first [count] slots.  Exists and GetIfExists answer the same for every
    identifier before and after, and Get returns the same element for
    every identifier that exists. *)
Theorem C7_ShrinkToFit_changes_no_query {E : Type} {E0 : ValueInit E} w
    (s : SparseSet E) :
  wf w s ->
  let s' := after (DS.ShrinkToFit s) in
  DS.ShrinkToFit s = (Returned tt, s') ∧
  AZ.ShrinkToFit s = (Returned tt, s') ∧
  m_ID_To_Element s' = m_ID_To_Element s ∧
  m_CurrentLast s' = m_CurrentLast s ∧
  m_Elements s' = take (N.to_nat (m_CurrentLast s)) (m_Elements s) ∧
  m_Element_To_ID s' = take (N.to_nat (m_CurrentLast s)) (m_Element_To_ID s) ∧
  (∀ id, outcome (DS.Exists w id s') = outcome (DS.Exists w id s)) ∧
  (∀ id, outcome (DS.GetIfExists w id s') = outcome (DS.GetIfExists w id s)) ∧
  (∀ id, DS.Exists w id s = (Returned true, s) ->
         ∃ v, DS.Get id s = (Returned v, s) ∧ DS.Get id s' = (Returned v, s')).
Proof.
  intros Hwf s'. pose proof (wf_shrunk w s Hwf) as Hwf'.
  pose proof (wf_dense_cap w s Hwf) as Hcap.
  pose proof (wf_dense_len w s Hwf) as Hlen.
  change (@AZ.ShrinkToFit) with (@DS.ShrinkToFit).
  subst s'. rewrite ShrinkToFit_eq. unfold after. simpl snd.
  set (s' := mkSparseSet _ _ _ _) in *.
  assert (∀ id, stored w s' id = stored w s id) as Hst
    by (intros id; by apply stored_shrunk).
  assert (∀ id, present w s' id = present w s id) as Hpr by done.
  repeat split; try done.
  - by apply vresize_shrink.
  - apply vresize_shrink. unfold vsize in *. lia.
  - intros id. by rewrite !Exists_eq, Hpr.
  - intros id.
    destruct (GetIfExists_never_fails w s id Hwf) as (-> & _).
    destruct (GetIfExists_never_fails w s' id Hwf') as (-> & _).
    unfold outcome. simpl. by rewrite Hst.
  - intros id Hex%Exists_true.
    destruct (wf_present_pos w s id Hwf Hex) as (pos & Hat & Hne & Hlt & _ & v & Hv).
    exists v. rewrite !Get_eq. subst s'. fields. rewrite Hat, Hv.
    rewrite vat_resize_old by lia. by rewrite Hv.
Qed.

(** C7 on [three_ids] after [Erase(1)], which has three dense slots and
    count 2. *)
Lemma C7_witness :
  let s := after (DS.Erase U8 1 three_ids) in
  m_Elements s = [30; 20; 30]%nat ∧
  m_Elements (after (DS.ShrinkToFit s)) = take 2 (m_Elements s) ∧
  ∃ v, DS.Get 3 s = (Returned v, s) ∧
       DS.Get 3 (after (DS.ShrinkToFit s)) = (Returned v, after (DS.ShrinkToFit s)).
Proof.
  assert (wf U8 (after (DS.Erase U8 1 three_ids))) as Hwf.
  { apply (exec_wf U8 [CInsert 1 10%nat; CInsert 2 20%nat; CInsert 3 30%nat; CErase 1]
             (DS.SparseSet_sized U8 4)).
    - by apply (wf_construct U8 (CtorSized 4)).
    - repeat constructor. }
  destruct (C7_ShrinkToFit_changes_no_query U8 _ Hwf)
    as (_ & _ & _ & _ & Htake & _ & _ & _ & HGet).
  split; [reflexivity|]. split; [exact Htake|].
  apply (HGet 3). reflexivity.
Defined.

(** What an observation on SparseSet.hpp becomes on SparseSet.h. *)
Lemma void_of_other {E : Type} (c : Call E) (o : Obs E) :
  (∀ id e, c ≠ CInsertMove id e) -> (∀ id, c ≠ CErase id) -> void_of c o = o.
Proof.
  intros H1 H2. destruct c as [| id e | id | | | | | | |]; try done.
  - by destruct (H1 id e).
  - by destruct (H2 id).
Qed.

(** C8, as the code has it.  On a set built by the default or the sized
    constructor, every sequence of calls (Insert/Add, Erase/Remove, Get,
    GetIfExists, Exists, Reserve/ExtendTo, ShrinkToFit,
    NumSupportedElements, GetData) with the same arguments takes both
    classes through the same members (sparse table, dense identifiers,
    dense elements, count), throws at the same calls, and shows the caller
    the same results, except that [Insert(IDType, ElementType&&)] and
    [Erase] return the [bool] that [Add(IDType, ElementType&&)] and
    [Remove] do not return. *)
Theorem C8_same_members_same_results {E : Type} {E0 : ValueInit E} w
    (c : Ctor) (calls : list (Call E)) :
  ctor_ok w c -> Forall (call_ok w) calls ->
  AZCalls.construct (E:=E) w c = DSCalls.construct w c ∧
  AZCalls.exec w calls (AZCalls.construct w c) =
    DSCalls.exec w calls (DSCalls.construct w c) ∧
  AZCalls.trace w calls (AZCalls.construct w c) =
    zip_with void_of calls (DSCalls.trace w calls (DSCalls.construct w c)) ∧
  (∀ (call : Call E) (o : Obs E),
     (∀ id e, call ≠ CInsertMove id e) -> (∀ id, call ≠ CErase id) ->
     void_of call o = o) ∧
  (∀ id (e : E) b, void_of (CInsertMove id e) (OBool b) = (OVoid : Obs E)) ∧
  (∀ id b, void_of (CErase id) (OBool b) = (OVoid : Obs E)).
Proof.
  intros Hc Hcalls. rewrite AZ_construct_eq.
  pose proof (wf_construct (E:=E) w c Hc) as Hwf.
  repeat split.
  - by apply AZ_exec_eq.
  - by apply AZ_trace_eq.
  - apply void_of_other.
Qed.

(** C8 along a run with insertions, an erasure of an existing and of an
    absent identifier, lookups that throw, and growth. *)
Lemma C8_witness :
  let calls := [CInsert 1 10; CInsertMove 2 20; CInsertMove 2 21; CErase 1;
                CErase 1; CInsert 9 5; CGet 1; CGetIfExists 2; CExists 2;
                CShrinkToFit; CReserve 8; CNumSupportedElements;
                CGetData]%nat in
  AZCalls.exec U8 calls (AZCalls.construct U8 (CtorSized 4)) =
    DSCalls.exec U8 calls (DSCalls.construct U8 (CtorSized 4)) ∧
  AZCalls.trace U8 calls (AZCalls.construct U8 (CtorSized 4)) =
    zip_with void_of calls
      (DSCalls.trace U8 calls (DSCalls.construct U8 (CtorSized 4))).
Proof.
  destruct (C8_same_members_same_results U8 (CtorSized 4)
     [CInsert 1 10; CInsertMove 2 20; CInsertMove 2 21; CErase 1;
      CErase 1; CInsert 9 5; CGet 1; CGetIfExists 2; CExists 2;
      CShrinkToFit; CReserve 8; CNumSupportedElements; CGetData]%nat)
    as (_ & Hexec & Htrace & _).
  - reflexivity.
  - repeat constructor.
  - split; [exact Hexec|exact Htrace].
Defined.

(** C8 as stated fails.  On [one_id], [Erase] tells an absent identifier
    from an existing one and [Remove] does not; and a copy of [one_id]
    has count 1 with SparseSet.hpp (implicit member-wise copy) and count 0
    with SparseSet.h, after which erasing identifier 0 returns [true] on
    one and throws on the other. *)
Lemma C8_variants_differ :
  (fst (DSCalls.call U8 (CErase 1) one_id) = OBool false ∧
   fst (DSCalls.call U8 (CErase 0) one_id) = OBool true ∧
   fst (AZCalls.call U8 (CErase 1) one_id) = OVoid ∧
   fst (AZCalls.call U8 (CErase 0) one_id) = OVoid) ∧
  (m_CurrentLast (DS.SparseSet_copy one_id) = 1 ∧
   m_CurrentLast (AZ.SparseSet_copy one_id) = 0 ∧
   fst (DSCalls.call U8 (CErase 0) (DS.SparseSet_copy one_id)) = OBool true ∧
   fst (AZCalls.call U8 (CErase 0) (AZ.SparseSet_copy one_id)) = OThrow) ∧
  ¬ (∀ c : Call nat,
       fst (AZCalls.call U8 c (AZ.SparseSet_copy one_id)) =
       void_of c (fst (DSCalls.call U8 c (DS.SparseSet_copy one_id)))).
Proof.
  split; [by vm_compute|]. split; [by vm_compute|].
  intros H. specialize (H (CErase 0)). vm_compute in H. discriminate H.
Qed.

(** C9, where the code departs from it.  In SparseSet.h the copy
    constructor copies the three arrays and leaves count at its default 0,
    and Exists on the copy answers what it answers on the source.  The
    body of the copy assignment operator assigns the three arrays and does
    not mention count, as the claim has it, but the body ends without a
    return statement in a function that returns [SparseSet&]: a call,
    [b = a;], does not complete with the destination's count unchanged, its
    behaviour is undefined.  The move assignment operator has the same
    body and the same end. *)
Theorem C9_copy_assignment_has_no_return {E : Type} w (Other this : SparseSet E) :
  let copy := AZ.SparseSet_copy Other in
  let assigned := after (AZ.copy_assign_body Other this) in
  (m_ID_To_Element copy = m_ID_To_Element Other ∧
   m_Element_To_ID copy = m_Element_To_ID Other ∧
   m_Elements copy = m_Elements Other ∧
   m_CurrentLast copy = 0 ∧
   ∀ id, outcome (AZ.Exists w id copy) = outcome (AZ.Exists w id Other)) ∧
  (AZ.copy_assign_body Other this = (Returned tt, assigned) ∧
   m_ID_To_Element assigned = m_ID_To_Element Other ∧
   m_Element_To_ID assigned = m_Element_To_ID Other ∧
   m_Elements assigned = m_Elements Other ∧
   m_CurrentLast assigned = m_CurrentLast this) ∧
  AZ.copy_assign Other this = Undefined ∧
  AZ.move_assign Other this = Undefined.
Proof.
  change (@AZ.Exists) with (@DS.Exists).
  repeat split; intros id; by rewrite !Exists_eq.
Qed.

(** The copy of a consistent set that holds something is not consistent:
    its sparse table names dense positions that its count rules out. *)
Lemma AZ_copy_not_consistent {E : Type} w (Other : SparseSet E) id :
  present w Other id = true -> ¬ wf w (AZ.SparseSet_copy Other).
Proof.
  intros (pos & Hat & Hne)%present_true Hwf.
  destruct (wf_sparse w _ Hwf id pos Hat Hne) as [Hlt _].
  simpl in Hlt. lia.
Qed.

(** C10.  On an object whose two dense arrays have one length, Insert
    (both overloads; Add in SparseSet.h) with an identifier at or beyond
    NumSupportedElements, which Exists reports absent, ends with
    [std::out_of_range], and the object then has the element and the
    identifier written in the dense arrays at position count (over the
    slot that was there when count is below the dense length, appended
    otherwise) while the sparse table and count are as before. *)
Theorem C10_Insert_unsupported_throws_after_writing {E : Type} w
    (s : SparseSet E) id (e : E) :
  length (m_Element_To_ID s) = length (m_Elements s) ->
  vsize (m_ID_To_Element s) <= id ->
  let s' :=
    if m_CurrentLast s <? vsize (m_Elements s)
    then mkSparseSet (m_ID_To_Element s)
           (<[N.to_nat (m_CurrentLast s) := id]> (m_Element_To_ID s))
           (<[N.to_nat (m_CurrentLast s) := e]> (m_Elements s))
           (m_CurrentLast s)
    else mkSparseSet (m_ID_To_Element s)
           (m_Element_To_ID s ++ [id]) (m_Elements s ++ [e])
           (m_CurrentLast s) in
  DS.Exists w id s = (Returned false, s) ∧
  DS.Insert w id e s = (OutOfRange, s') ∧
  DS.Insert_move w id e s = (OutOfRange, s') ∧
  AZ.Add w id e s = (OutOfRange, s') ∧
  AZ.Add_move w id e s = (OutOfRange, s') ∧
  m_ID_To_Element s' = m_ID_To_Element s ∧
  m_CurrentLast s' = m_CurrentLast s ∧
  (m_CurrentLast s <= vsize (m_Elements s) ->
   vat (m_Elements s') (m_CurrentLast s) = Some e ∧
   vat (m_Element_To_ID s') (m_CurrentLast s) = Some id) ∧
  (vsize (m_Elements s) <= m_CurrentLast s ->
   vsize (m_Elements s') = vsize (m_Elements s) + 1 ∧
   vsize (m_Element_To_ID s') = vsize (m_Element_To_ID s) + 1).
Proof.
  intros Hlen Hge s'.
  assert (present w s id = false) as Hp by (apply present_false; by left).
  change (@AZ.Add) with (@DS.Insert). change (@AZ.Add_move) with (@DS.Insert).
  rewrite Exists_eq, Hp, Insert_absent, Insert_move_absent by done.
  apply N.ltb_ge in Hge. rewrite Hge.
  change s' with (placed id e s).
  rewrite placed_sparse, placed_count.
  repeat split; try done.
  - by apply placed_at_count.
  - by apply placed_at_count.
  - unfold placed.
    destruct (N.ltb_spec (m_CurrentLast s) (vsize (m_Elements s))); [lia|].
    fields. by rewrite vsize_snoc.
  - unfold placed.
    destruct (N.ltb_spec (m_CurrentLast s) (vsize (m_Elements s))); [lia|].
    fields. by rewrite vsize_snoc.
Qed.

(** C10 on [three_ids] after [Erase(1)] (count 2, three dense slots)
    with the unsupported identifier 9: the stale third slot is
    overwritten. *)
Lemma C10_witness :
  DS.Insert U8 9 5%nat (after (DS.Erase U8 1 three_ids)) =
    (OutOfRange, mkSparseSet [255; 255; 1; 0] [3; 2; 9] [30; 20; 5]%nat 2).
Proof.
  destruct (C10_Insert_unsupported_throws_after_writing U8
              (after (DS.Erase U8 1 three_ids)) 9 5%nat)
    as (_ & H & _); [reflexivity|discriminate|exact H].
Defined.

(* ================================================================= *)
(** * Further properties of the two classes *)

(** What Erase does to a consistent set, the two cases of the removal
    taken together. *)
Lemma Erase_wf_spec {E : Type} w (s : SparseSet E) id :
  wf w s -> present w s id = true ->
  ∃ s', DS.Erase w id s = (Returned true, s') ∧ wf w s' ∧
        m_CurrentLast s' = m_CurrentLast s - 1 ∧ 0 < m_CurrentLast s ∧
        vsize (m_Elements s') = vsize (m_Elements s) ∧
        vsize (m_ID_To_Element s') = vsize (m_ID_To_Element s) ∧
        ∀ id', stored w s' id' = if decide (id = id') then None else stored w s id'.
Proof.
  intros Hwf (pos & Hat & Hne)%present_true.
  destruct (wf_sparse w s Hwf id pos Hat Hne) as [Hlt _].
  destruct (decide (pos = m_CurrentLast s - 1)) as [->|Hnl].
  - eexists. split; [by apply Erase_wf_last; (done || lia)|].
    split; [apply wf_erased_last; (done || lia)|]. fields.
    rewrite vsize_insert. repeat split; try done; try lia.
    intros id'. by apply stored_erased_last.
  - destruct (Erase_wf_swap w s id pos Hwf Hat Hne Hnl)
      as (movedId & v & Hm & Hv & Hmid & Hmat & ->).
    eexists. split; [done|]. split; [by apply wf_erased_swap|]. fields.
    rewrite !vsize_insert. repeat split; try done; try lia.
    intros id'. by apply (stored_erased_swap w s id pos movedId v id').
Qed.

(** On a consistent set [present] says whether a value is stored. *)
Lemma present_stored {E : Type} w (s : SparseSet E) id :
  wf w s -> present w s id = bool_decide (is_Some (stored w s id)).
Proof.
  intros Hwf. destruct (present w s id) eqn:Hp.
  - destruct (stored_is_Some w s id Hwf Hp) as [v ->].
    by rewrite bool_decide_eq_true_2.
  - rewrite (stored_absent w s id Hp).
    rewrite bool_decide_eq_false_2; [done|]. by intros [? ?].
Qed.

(** X1.  On a consistent set, Insert (both overloads; Add) of a supported
    identifier that does not exist returns ([true] for the move overload);
    afterwards the identifier exists, Get and GetIfExists return the
    inserted element, count is one more, the support is the same, and
    Exists and GetIfExists answer for every other identifier what they
    answered before. *)
Theorem X1_Insert_then_lookup {E : Type} w (s : SparseSet E) id (e : E) :
  wf w s ->
  id < vsize (m_ID_To_Element s) ->
  DS.Exists w id s = (Returned false, s) ->
  let s' := after (DS.Insert w id e s) in
  DS.Insert w id e s = (Returned tt, s') ∧
  DS.Insert_move w id e s = (Returned true, s') ∧
  AZ.Add w id e s = (Returned tt, s') ∧
  DS.Exists w id s' = (Returned true, s') ∧
  DS.Get id s' = (Returned e, s') ∧
  DS.GetIfExists w id s' = (Returned (Some e), s') ∧
  m_CurrentLast s' = m_CurrentLast s + 1 ∧
  vsize (m_ID_To_Element s') = vsize (m_ID_To_Element s) ∧
  (∀ id', id' ≠ id ->
     DS.Exists w id' s' = (fst (DS.Exists w id' s), s') ∧
     DS.GetIfExists w id' s' = (fst (DS.GetIfExists w id' s), s')).
Proof.
  intros Hwf Hsup Habs%Exists_false s'.
  pose proof (supported_absent w s id Habs Hsup) as Hat.
  change (@AZ.Add) with (@DS.Insert).
  subst s'. rewrite (Insert_wf_absent w s id e Hwf Hat),
    (Insert_move_wf_absent w s id e Hwf Hat).
  unfold after. simpl snd.
  pose proof (wf_inserted w s id e Hwf Hat) as Hwf'.
  destruct (inserted_read w s id e Hwf Hat) as [Hp HGet].
  assert (∀ id', stored w (inserted id e s) id' =
                 if decide (id = id') then Some e else stored w s id') as Hst
    by (intros id'; by apply stored_inserted).
  repeat split; try done.
  - by apply Exists_true.
  - destruct (GetIfExists_never_fails w _ id Hwf') as (-> & _).
    rewrite Hst. by rewrite decide_True.
  - unfold inserted. fields. by rewrite vsize_insert.
  - rewrite !Exists_eq. simpl fst.
    rewrite !present_stored, Hst by done. by rewrite decide_False.
  - destruct (GetIfExists_never_fails w _ id' Hwf') as (-> & _).
    destruct (GetIfExists_never_fails w s id' Hwf) as (-> & _).
    simpl fst. rewrite Hst. by rewrite decide_False.
Qed.

(** X1 on [one_id] with the supported, absent identifier 1. *)
Lemma X1_witness :
  DS.Get 1 (after (DS.Insert U8 1 5%nat one_id)) =
    (Returned 5%nat, after (DS.Insert U8 1 5%nat one_id)) ∧
  DS.GetIfExists U8 0 (after (DS.Insert U8 1 5%nat one_id)) =
    (fst (DS.GetIfExists U8 0 one_id), after (DS.Insert U8 1 5%nat one_id)).
Proof.
  assert (wf U8 one_id) as Hwf.
  { apply exec_wf; [by apply (wf_construct U8 (CtorSized 2))|].
    repeat constructor. }
  destruct (X1_Insert_then_lookup U8 one_id 1 5%nat Hwf)
    as (_ & _ & _ & _ & HGet & _ & _ & _ & Hother); [reflexivity|reflexivity|].
  split; [exact HGet|]. apply (Hother 0). discriminate.
Defined.



(** X3.  On a consistent set, inserting a supported identifier that does
    not exist and erasing it again gives back the sparse table and count
    the set had; every live dense slot holds what it held, and Exists and
    GetIfExists answer as before for every identifier.  Only the dense
    slot at position count keeps the inserted element and identifier. *)
Theorem X3_Insert_then_Erase_restores {E : Type} w (s : SparseSet E) id (e : E) :
  wf w s ->
  id < vsize (m_ID_To_Element s) ->
  DS.Exists w id s = (Returned false, s) ->
  let s1 := after (DS.Insert w id e s) in
  let s2 := after (DS.Erase w id s1) in
  DS.Erase w id s1 = (Returned true, s2) ∧
  AZ.Remove w id (after (AZ.Add w id e s)) = (Returned tt, s2) ∧
  m_ID_To_Element s2 = m_ID_To_Element s ∧
  m_CurrentLast s2 = m_CurrentLast s ∧
  (∀ pos, pos < m_CurrentLast s ->
     vat (m_Elements s2) pos = vat (m_Elements s) pos ∧
     vat (m_Element_To_ID s2) pos = vat (m_Element_To_ID s) pos) ∧
  vat (m_Elements s2) (m_CurrentLast s) = Some e ∧
  vat (m_Element_To_ID s2) (m_CurrentLast s) = Some id ∧
  (∀ id', DS.Exists w id' s2 = (fst (DS.Exists w id' s), s2) ∧
          DS.GetIfExists w id' s2 = (fst (DS.GetIfExists w id' s), s2)).
Proof.
  intros Hwf Hsup Habs%Exists_false s1 s2.
  pose proof (supported_absent w s id Habs Hsup) as Hat.
  pose proof (wf_inserted w s id e Hwf Hat) as Hwf1.
  pose proof (wf_dense_len w s Hwf) as Hlen.
  pose proof (wf_dense_cap w s Hwf) as Hcap.
  change (@AZ.Add) with (@DS.Insert).
  assert (s1 = inserted id e s) as Hs1
    by (subst s1; by rewrite (Insert_wf_absent w s id e Hwf Hat)).
  assert (DS.Erase w id s1 = (Returned true, placed id e s)) as HErase.
  { rewrite Hs1, Erase_wf_last; try done.
    - unfold inserted. fields. f_equal.
      assert (placed id e s =
              mkSparseSet (m_ID_To_Element s) (m_Element_To_ID (placed id e s))
                (m_Elements (placed id e s)) (m_CurrentLast s)) as ->.
      { unfold placed. by destruct (_ <? _). }
      fields. f_equal; [|lia].
      rewrite list_insert_insert_eq. by apply list_insert_id.
    - unfold inserted. fields.
      replace (m_CurrentLast s + 1 - 1) with (m_CurrentLast s) by lia.
      apply vat_insert_eq. by eapply vat_Some_lt.
    - unfold inserted. fields. lia. }
  assert (s2 = placed id e s) as Hs2 by (subst s2; by rewrite HErase).
  pose proof (wf_placed w s id e Hwf) as Hwf2.
  rewrite AZ_Remove_eq. fold s1. rewrite HErase, Hs2.
  rewrite placed_sparse, placed_count.
  repeat split; try done.
  - by apply placed_below_count.
  - by apply placed_below_count.
  - by apply placed_at_count.
  - by apply placed_at_count.
  - rewrite !Exists_eq. simpl fst. unfold present. by rewrite placed_sparse.
  - destruct (GetIfExists_never_fails w _ id' Hwf2) as (-> & _).
    destruct (GetIfExists_never_fails w s id' Hwf) as (-> & _).
    simpl fst. by rewrite stored_placed.
Qed.

(** X3 on [one_id] with identifier 1. *)
Lemma X3_witness :
  let s2 := after (DS.Erase U8 1 (after (DS.Insert U8 1 5%nat one_id))) in
  m_ID_To_Element s2 = m_ID_To_Element one_id ∧
  m_CurrentLast s2 = m_CurrentLast one_id.
Proof.
  assert (wf U8 one_id) as Hwf.
  { apply exec_wf; [by apply (wf_construct U8 (CtorSized 2))|].
    repeat constructor. }
  destruct (X3_Insert_then_Erase_restores U8 one_id 1 5%nat Hwf)
    as (_ & _ & Hsp & Hcnt & _); [reflexivity|reflexivity|].
  split; [exact Hsp|exact Hcnt].
Defined.

(** The live dense identifiers of a consistent set, position by
    position. *)
Lemma live_id_sparse {E : Type} w (s : SparseSet E) (i : nat) id :
  wf w s ->
  take (N.to_nat (m_CurrentLast s)) (m_Element_To_ID s) !! i = Some id ->
  vat (m_ID_To_Element s) id = Some (N.of_nat i) ∧ N.of_nat i < m_CurrentLast s.
Proof.
  intros Hwf [Hi Hlt]%lookup_take_Some.
  assert (N.of_nat i < m_CurrentLast s) as Hpos by lia.
  destruct (wf_dense w s Hwf _ Hpos) as (id' & Hid' & Hat).
  unfold vat in Hid'. rewrite Nat2N.id, Hi in Hid'. by injection Hid' as <-.
Qed.

(** X4.  In a consistent set the first count slots of the dense arrays are
    the live entries: the dense identifier array names every identifier
    that exists exactly once there and no other, and the dense element
    array (GetData) holds at the same position the element Get returns for
    that identifier.  Count is at most NumSupportedElements. *)
Theorem X4_live_prefix {E : Type} w (s : SparseSet E) :
  wf w s ->
  let live_ids := take (N.to_nat (m_CurrentLast s)) (m_Element_To_ID s) in
  let live_elements := take (N.to_nat (m_CurrentLast s)) (m_Elements s) in
  DS.GetData s = (Returned (m_Elements s), s) ∧
  length live_ids = N.to_nat (m_CurrentLast s) ∧
  length live_elements = N.to_nat (m_CurrentLast s) ∧
  NoDup live_ids ∧
  (∀ id, id ∈ live_ids <-> DS.Exists w id s = (Returned true, s)) ∧
  (∀ (i : nat) id, live_ids !! i = Some id ->
     ∃ v, live_elements !! i = Some v ∧ DS.Get id s = (Returned v, s)) ∧
  m_CurrentLast s <= vsize (m_ID_To_Element s).
Proof.
  intros Hwf live_ids live_elements.
  pose proof (wf_dense_cap w s Hwf) as Hcap.
  pose proof (wf_dense_len w s Hwf) as Hlen.
  pose proof (wf_count_is_id w s Hwf) as Hcid.
  subst live_elements. simpl.
  split; [done|]. split; [|split; [|split; [|split; [|split]]]].
  - apply length_take_le. unfold vsize in *. lia.
  - apply length_take_le. unfold vsize in *. lia.
  - apply NoDup_alt. intros i j id Hi Hj.
    destruct (live_id_sparse w s i id Hwf Hi) as [Hati _].
    destruct (live_id_sparse w s j id Hwf Hj) as [Hatj _].
    rewrite Hati in Hatj. injection Hatj. lia.
  - intros id. rewrite (Exists_true w). split.
    + intros [i Hi]%list_elem_of_lookup.
      destruct (live_id_sparse w s i id Hwf Hi) as [Hat Hlt].
      apply present_true. exists (N.of_nat i). split; [done|lia].
    + intros Hp.
      destruct (wf_present_pos w s id Hwf Hp) as (pos & _ & _ & Hlt & Hid & _).
      apply list_elem_of_lookup. exists (N.to_nat pos).
      apply lookup_take_Some. split; [done|lia].
  - intros i id Hi.
    destruct (live_id_sparse w s i id Hwf Hi) as [Hat Hlt].
    destruct (vat_lt (m_Elements s) (N.of_nat i)) as [v Hv]; [lia|].
    exists v. rewrite Get_eq, Hat, Hv. split; [|done].
    apply lookup_take_Some. unfold vat in Hv. rewrite Nat2N.id in Hv.
    split; [done|lia].
  - by apply (wf_count_le w).
Qed.

(** X4 on [three_ids] after [Erase(1)]: the live identifiers are 3 and 2,
    and three dense slots are allocated. *)
Lemma X4_witness :
  let s := after (DS.Erase U8 1 three_ids) in
  m_Element_To_ID s = [3; 2; 3] ∧
  NoDup (take (N.to_nat (m_CurrentLast s)) (m_Element_To_ID s)) ∧
  (3 ∈ take (N.to_nat (m_CurrentLast s)) (m_Element_To_ID s) <->
   DS.Exists U8 3 s = (Returned true, s)).
Proof.
  assert (wf U8 (after (DS.Erase U8 1 three_ids))) as Hwf.
  { apply (exec_wf U8 [CInsert 1 10%nat; CInsert 2 20%nat; CInsert 3 30%nat; CErase 1]
             (DS.SparseSet_sized U8 4)).
    - by apply (wf_construct U8 (CtorSized 4)).
    - repeat constructor. }
  destruct (X4_live_prefix U8 _ Hwf) as (_ & _ & _ & Hnd & Hin & _).
  split; [reflexivity|]. split; [exact Hnd|exact (Hin 3)].
Defined.

(** X5.  GetElementIndex of SparseSet.hpp on a consistent set: it throws
    for an identifier at or beyond NumSupportedElements, returns
    InvalidIndex for a supported identifier that does not exist, and for
    an identifier that exists returns a position below count at which the
    dense identifier array holds the identifier and GetData holds the
    element Get returns. *)
Theorem X5_GetElementIndex_locates {E : Type} w (s : SparseSet E) id :
  wf w s ->
  (vsize (m_ID_To_Element s) <= id ->
     DS.GetElementIndex id s = (OutOfRange, s)) ∧
  (id < vsize (m_ID_To_Element s) -> DS.Exists w id s = (Returned false, s) ->
     DS.GetElementIndex id s = (Returned (InvalidIndex w), s)) ∧
  (DS.Exists w id s = (Returned true, s) ->
     ∃ pos v, DS.GetElementIndex id s = (Returned pos, s) ∧
              pos < m_CurrentLast s ∧ pos ≠ InvalidIndex w ∧
              vat (m_Element_To_ID s) pos = Some id ∧
              vat (m_Elements s) pos = Some v ∧
              DS.Get id s = (Returned v, s)).
Proof.
  intros Hwf. unfold DS.GetElementIndex, at_. repeat split.
  - intros Hge. by rewrite vat_ge.
  - intros Hlt Habs%Exists_false.
    by rewrite (supported_absent w s id Habs Hlt).
  - intros Hex%Exists_true.
    destruct (wf_present_pos w s id Hwf Hex) as (pos & Hat & Hne & Hlt & Hid & v & Hv).
    exists pos, v. rewrite Get_eq, Hat, Hv. done.
Qed.

(** X5 on [three_ids]: identifier 2 is at dense position 1, identifier 0
    is supported and absent, identifier 4 is not supported. *)
Lemma X5_witness :
  DS.GetElementIndex 4 three_ids = (OutOfRange, three_ids) ∧
  DS.GetElementIndex 0 three_ids = (Returned (InvalidIndex U8), three_ids) ∧
  ∃ pos v, DS.GetElementIndex 2 three_ids = (Returned pos, three_ids) ∧
           pos < m_CurrentLast three_ids ∧ pos ≠ InvalidIndex U8 ∧
           vat (m_Element_To_ID three_ids) pos = Some 2 ∧
           vat (m_Elements three_ids) pos = Some v ∧
           DS.Get 2 three_ids = (Returned v, three_ids).
Proof.
  assert (wf U8 three_ids) as Hwf.
  { apply exec_wf; [by apply (wf_construct U8 (CtorSized 4))|].
    repeat constructor. }
  split; [|split].
  - apply (X5_GetElementIndex_locates U8 three_ids 4 Hwf). discriminate.
  - apply (X5_GetElementIndex_locates U8 three_ids 0 Hwf); reflexivity.
  - apply (X5_GetElementIndex_locates U8 three_ids 2 Hwf). reflexivity.
Defined.

(** X6.  On a consistent set GetIfExists agrees with Exists and Get: it
    holds [v] exactly when Exists is [true] and Get returns [v], and it is
    empty exactly when Exists is [false]; it never throws and leaves the
    object as it is.  The same in SparseSet.h. *)
Theorem X6_GetIfExists_agrees_with_Get {E : Type} w (s : SparseSet E) id :
  wf w s ->
  (∃ o, DS.GetIfExists w id s = (Returned o, s) ∧
        AZ.GetIfExists w id s = (Returned o, s)) ∧
  (∀ v, DS.GetIfExists w id s = (Returned (Some v), s) <->
        DS.Exists w id s = (Returned true, s) ∧ DS.Get id s = (Returned v, s)) ∧
  (DS.GetIfExists w id s = (Returned None, s) <->
   DS.Exists w id s = (Returned false, s)).
Proof.
  intros Hwf.
  destruct (GetIfExists_never_fails w s id Hwf) as (HG & HGh & Hnone & Hsome).
  split; [eauto|]. rewrite HG. split.
  - intros v. rewrite (Exists_true w), Get_eq.
    destruct (present w s id) eqn:Hp.
    + destruct (wf_present_pos w s id Hwf Hp) as (pos & Hat & Hne & _ & _ & v0 & Hv).
      rewrite (stored_present w s id pos Hat Hne), Hat, Hv.
      split; [by intros [= ->]|by intros [_ [= ->]]].
    + rewrite (Hnone eq_refl). split; [intros [=]|intros [[=] _]].
  - rewrite (Exists_false w). destruct (present w s id) eqn:Hp.
    + destruct (Hsome eq_refl) as [v ->]. split; intros [=].
    + by rewrite (Hnone eq_refl).
Qed.

(** X6 on [three_ids] with the existing identifier 3. *)
Lemma X6_witness :
  DS.GetIfExists U8 3 three_ids = (Returned (Some 30%nat), three_ids) <->
  DS.Exists U8 3 three_ids = (Returned true, three_ids) ∧
  DS.Get 3 three_ids = (Returned 30%nat, three_ids).
Proof.
  assert (wf U8 three_ids) as Hwf.
  { apply exec_wf; [by apply (wf_construct U8 (CtorSized 4))|].
    repeat constructor. }
  destruct (X6_GetIfExists_agrees_with_Get U8 three_ids 3 Hwf) as (_ & H & _).
  exact (H 30%nat).
Defined.

(** X7.  On a set built by the default or the sized constructor and used
    through calls that never pass InvalidIndex to Insert as an identifier,
    Get returns the stored element when the identifier exists and throws
    [std::out_of_range], leaving the object as it is, when it does not.
    The same in SparseSet.h. *)
Theorem X7_Get_throws_iff_absent {E : Type} {E0 : ValueInit E} w
    (c : Ctor) (calls : list (Call E)) id :
  ctor_ok w c -> Forall (call_ok w) calls -> Forall (no_sentinel w) calls ->
  let s := DSCalls.exec w calls (DSCalls.construct w c) in
  (DS.Exists w id s = (Returned true, s) ->
     ∃ v, DS.Get id s = (Returned v, s) ∧ AZ.Get id s = (Returned v, s) ∧
          DS.GetIfExists w id s = (Returned (Some v), s)) ∧
  (DS.Exists w id s = (Returned false, s) ->
     DS.Get id s = (OutOfRange, s) ∧ AZ.Get id s = (OutOfRange, s)).
Proof.
  intros Hc Hcalls Hns s.
  assert (wf w s) as Hwf by (apply exec_wf; [by apply wf_construct|done]).
  split.
  - intros Hex%Exists_true.
    destruct (wf_present_pos w s id Hwf Hex) as (pos & Hat & Hne & _ & _ & v & Hv).
    exists v. change (@AZ.Get) with (@DS.Get).
    rewrite Get_eq, GetIfExists_eq, Hex, Hat, Hv. done.
  - intros Habs%Exists_false.
    by apply (Get_absent_throws_without_sentinel w c calls id).
Qed.

(** X7 on a [uint8_t] set of four identifiers after two insertions and an
    erasure. *)
Lemma X7_witness :
  let s := DSCalls.exec U8 [CInsert 1 10%nat; CInsert 2 20%nat; CErase 1]
             (DSCalls.construct U8 (CtorSized 4)) in
  DS.Get 1 s = (OutOfRange, s) ∧ AZ.Get 1 s = (OutOfRange, s).
Proof.
  apply (X7_Get_throws_iff_absent U8 (CtorSized 4)
           [CInsert 1 10%nat; CInsert 2 20%nat; CErase 1] 1).
  - reflexivity.
  - repeat constructor.
  - repeat constructor; discriminate.
  - reflexivity.
Defined.

(** X8.  A set fresh from the default or the sized constructor (both
    classes build the same object) supports 0, respectively [n],
    identifiers and holds none: count is 0, GetData is empty, and for
    every identifier Exists is [false], GetIfExists is empty, Get throws
    and Erase returns [false] without a change.  Insert returns for the
    identifiers below the support and throws for all others, so on a
    default-constructed set every Insert throws. *)
Theorem X8_fresh_set_is_empty {E : Type} {E0 : ValueInit E} w (c : Ctor) id (e : E) :
  ctor_ok w c ->
  let s := DSCalls.construct w c in
  let n := match c with CtorDefault => 0 | CtorSized n => n end in
  AZCalls.construct w c = s ∧
  DS.NumSupportedElements s = (Returned n, s) ∧
  AZ.NumSupportedElements w s = (Returned n, s) ∧
  m_CurrentLast s = 0 ∧
  DS.GetData s = (Returned [], s) ∧
  DS.Exists w id s = (Returned false, s) ∧
  DS.GetIfExists w id s = (Returned None, s) ∧
  DS.Get id s = (OutOfRange, s) ∧
  DS.Erase w id s = (Returned false, s) ∧
  (id < n -> outcome (DS.Insert w id e s) = Returned tt) ∧
  (n <= id -> outcome (DS.Insert w id e s) = OutOfRange).
Proof.
  intros Hc s n.
  pose proof (wf_construct (E:=E) w c Hc) as Hwf. fold s in Hwf.
  destruct (represents_construct (E:=E) w c) as [Hsup Hent]. fold s in Hsup, Hent.
  assert (vsize (m_ID_To_Element s) = n) as Hn.
  { rewrite <- Hsup. by destruct c. }
  assert (present w s id = false) as Habs.
  { rewrite present_stored, <- Hent by done.
    assert (entries (model_construct (E:=E) c) !! id = None) as ->
      by (destruct c; apply lookup_empty).
    rewrite bool_decide_eq_false_2; [done|]. by intros [? ?]. }
  assert (m_Elements s = []) as Hel by (by destruct c).
  split; [apply AZ_construct_eq|].
  rewrite AZ_NumSupportedElements_eq by (by apply (wf_support w)).
  unfold DS.NumSupportedElements, DS.GetData, read. rewrite Hn, Hel.
  rewrite Exists_eq, Habs, GetIfExists_eq, Habs, Erase_absent by done.
  repeat split; try done.
  - by destruct c.
  - apply (Get_absent_throws w); [done|]. rewrite Hel. unfold vsize. simpl. lia.
  - intros Hlt. rewrite Insert_wf_absent; [done|done|].
    apply supported_absent; [done|lia].
  - intros Hge. rewrite Insert_wf_unsupported; [done|done|lia].
Qed.

(** X8 on [SparseSet<uint8_t, int> s(4)] with identifiers 3 and 4, and on
    the default-constructed set. *)
Lemma X8_witness :
  outcome (DS.Insert U8 3 7%nat (DSCalls.construct U8 (CtorSized 4))) = Returned tt ∧
  outcome (DS.Insert U8 4 7%nat (DSCalls.construct U8 (CtorSized 4))) = OutOfRange ∧
  outcome (DS.Insert U8 0 7%nat (DSCalls.construct U8 CtorDefault)) = OutOfRange.
Proof.
  split; [|split].
  - apply (X8_fresh_set_is_empty U8 (CtorSized 4) 3 7%nat); reflexivity.
  - apply (X8_fresh_set_is_empty U8 (CtorSized 4) 4 7%nat); [reflexivity|discriminate].
  - apply (X8_fresh_set_is_empty U8 CtorDefault 0 7%nat); [exact I|discriminate].
Defined.

(** X9.  The reserved value InvalidIndex is never an entry of a consistent
    set: Exists is [false] for it, Erase returns [false], and Insert (both
    overloads; Add) throws for it.  The set holds at most InvalidIndex
    identifiers, every identifier that exists is below InvalidIndex, and
    so is its dense position. *)
Theorem X9_InvalidIndex_is_never_an_entry {E : Type} w (s : SparseSet E) (e : E) :
  wf w s ->
  DS.Exists w (InvalidIndex w) s = (Returned false, s) ∧
  DS.Erase w (InvalidIndex w) s = (Returned false, s) ∧
  outcome (DS.Insert w (InvalidIndex w) e s) = OutOfRange ∧
  outcome (DS.Insert_move w (InvalidIndex w) e s) = OutOfRange ∧
  outcome (AZ.Add w (InvalidIndex w) e s) = OutOfRange ∧
  m_CurrentLast s <= InvalidIndex w ∧
  (∀ id, DS.Exists w id s = (Returned true, s) ->
     id < InvalidIndex w ∧
     ∃ pos, DS.GetElementIndex id s = (Returned pos, s) ∧ pos < InvalidIndex w).
Proof.
  intros Hwf. pose proof (wf_support w s Hwf) as Hsup.
  pose proof (wf_count_is_id w s Hwf) as Hcid.
  assert (present w s (InvalidIndex w) = false) as Habs
    by (apply present_false; by left).
  change (@AZ.Add) with (@DS.Insert).
  rewrite Exists_eq, Habs, Erase_absent, Insert_wf_unsupported,
    Insert_move_wf_unsupported by done.
  repeat split; try done.
  - apply Exists_true, present_true in H as (pos & Hat & _).
    apply vat_Some_lt in Hat. lia.
  - apply Exists_true in H.
    destruct (wf_present_pos w s id Hwf H) as (pos & Hat & _ & Hlt & _).
    exists pos. unfold DS.GetElementIndex, at_. rewrite Hat. split; [done|lia].
Qed.

(** X9 on [all_ids_u8], the [uint8_t] set that holds all 255 identifiers
    it can hold. *)
Lemma X9_witness :
  outcome (DS.Insert U8 255 99%nat all_ids_u8) = OutOfRange ∧
  m_CurrentLast all_ids_u8 <= InvalidIndex U8.
Proof.
  assert (wf U8 all_ids_u8) as Hwf.
  { apply exec_wf; [by apply (wf_construct U8 (CtorSized 255))|].
    apply Forall_forall. intros c [i [-> Hi]]%list_elem_of_fmap.
    apply elem_of_seq in Hi. simpl. unfold is_id. change (modulus U8) with 256. lia. }
  destruct (X9_InvalidIndex_is_never_an_entry U8 all_ids_u8 99%nat Hwf)
    as (_ & _ & HIns & _ & _ & Hcnt & _).
  split; [exact HIns|exact Hcnt].
Defined.

Lemma resize_grow_twice {A} (l : list A) (n m : nat) (x : A) :
  (length l <= n)%nat -> (n <= m)%nat ->
  resize m x (resize n x l) = resize m x l.
Proof.
  intros Hn Hm. rewrite (resize_ge l n), (resize_ge l m) by lia.
  rewrite resize_ge by (rewrite length_app, length_replicate; lia).
  rewrite length_app, length_replicate, <- app_assoc, <- replicate_add.
  do 2 f_equal. lia.
Qed.

(** X10.  On every object, Reserve (ExtendTo) with [n] followed by Reserve
    with [m] leaves the object that one Reserve with the larger of the two
    leaves; in particular Reserve with the same argument twice is Reserve
    once. *)
Theorem X10_Reserve_composes {E : Type} w (s : SparseSet E) n m :
  after (DS.Reserve w m (after (DS.Reserve w n s))) =
    after (DS.Reserve w (N.max n m) s) ∧
  after (AZ.ExtendTo w m (after (AZ.ExtendTo w n s))) =
    after (AZ.ExtendTo w (N.max n m) s) ∧
  after (DS.Reserve w n (after (DS.Reserve w n s))) = after (DS.Reserve w n s).
Proof.
  assert (∀ n m, after (DS.Reserve w m (after (DS.Reserve w n s))) =
                 after (DS.Reserve w (N.max n m) s)) as H.
  { clear n m. intros n m. rewrite !Reserve_eq. unfold after. simpl snd.
    destruct (N.ltb_spec (vsize (m_ID_To_Element s)) n) as [Hn|Hn].
    - unfold set_ID_To_Element at 1 2. fields. rewrite vsize_resize.
      destruct (N.ltb_spec n m) as [Hm|Hm].
      + replace (N.max n m) with m by lia.
        destruct (N.ltb_spec (vsize (m_ID_To_Element s)) m); [|lia].
        unfold set_ID_To_Element, vresize, vsize in *. fields.
        f_equal. apply resize_grow_twice; lia.
      + replace (N.max n m) with n by lia.
        destruct (N.ltb_spec (vsize (m_ID_To_Element s)) n); [done|lia].
    - destruct (N.ltb_spec (vsize (m_ID_To_Element s)) m) as [Hm|Hm].
      + replace (N.max n m) with m by lia.
        destruct (N.ltb_spec (vsize (m_ID_To_Element s)) m); [done|lia].
      + destruct (N.ltb_spec (vsize (m_ID_To_Element s)) (N.max n m)); [lia|done]. }
  change (@AZ.ExtendTo) with (@DS.Reserve).
  split; [apply H|]. split; [apply H|].
  rewrite H. by rewrite N.max_id.
Qed.

(** X11.  On a consistent set ShrinkToFit leaves the two dense arrays with
    exactly count slots and the set consistent, a second ShrinkToFit
    changes nothing, and afterwards Get throws for every identifier that
    does not exist. *)
Theorem X11_ShrinkToFit_exact_and_idempotent {E : Type} {E0 : ValueInit E} w
    (s : SparseSet E) id :
  wf w s ->
  let s' := after (DS.ShrinkToFit s) in
  vsize (m_Elements s') = m_CurrentLast s ∧
  vsize (m_Element_To_ID s') = m_CurrentLast s ∧
  wf w s' ∧
  DS.ShrinkToFit s' = (Returned tt, s') ∧
  AZ.ShrinkToFit s' = (Returned tt, s') ∧
  (DS.Exists w id s' = (Returned false, s') ->
   DS.Get id s' = (OutOfRange, s') ∧ AZ.Get id s' = (OutOfRange, s')).
Proof.
  intros Hwf s'. subst s'. rewrite ShrinkToFit_eq. unfold after. simpl snd.
  pose proof (wf_shrunk w s Hwf) as Hwf'.
  pose proof (wf_count_is_id w s Hwf) as Hcid.
  change (@AZ.ShrinkToFit) with (@DS.ShrinkToFit).
  rewrite ShrinkToFit_eq. fields. rewrite !vsize_resize.
  split; [done|]. split; [done|]. split; [done|].
  split; [|split].
  - unfold vresize. by rewrite !resize_idemp.
  - unfold vresize. by rewrite !resize_idemp.
  - intros Habs%Exists_false. apply (Get_absent_throws w); [done|].
    fields. by rewrite vsize_resize.
Qed.

(** X11 on [overfull_u8], where Get returned a stale element for the
    absent identifier 0: after ShrinkToFit it throws. *)
Lemma X11_witness :
  DS.Get 0 overfull_u8 = (Returned 99%nat, overfull_u8) ∧
  DS.Get 0 (after (DS.ShrinkToFit overfull_u8)) =
    (OutOfRange, after (DS.ShrinkToFit overfull_u8)).
Proof.
  assert (wf U8 overfull_u8) as Hwf.
  { apply exec_wf.
    - apply exec_wf; [by apply (wf_construct U8 (CtorSized 255))|].
      apply Forall_forall. intros c [i [-> Hi]]%list_elem_of_fmap.
      apply elem_of_seq in Hi. simpl. unfold is_id. change (modulus U8) with 256. lia.
    - repeat constructor. }
  destruct (X11_ShrinkToFit_exact_and_idempotent U8 overfull_u8 0 Hwf)
    as (_ & _ & _ & _ & _ & HGet).
  destruct HGet as [HGet _]; [vm_compute; reflexivity|].
  split; [vm_compute; reflexivity|exact HGet].
Defined.

(** X12.  On a consistent set, after Erase (Remove) of an identifier that
    exists, Insert (Add) of a supported identifier that does not exist
    writes the element into the dense slot the erasure freed: the dense
    arrays keep their length and count is back to what it was. *)
Theorem X12_Insert_reuses_the_freed_slot {E : Type} w (s : SparseSet E)
    id id' (e : E) :
  wf w s ->
  DS.Exists w id s = (Returned true, s) ->
  let s1 := after (DS.Erase w id s) in
  id' < vsize (m_ID_To_Element s1) ->
  DS.Exists w id' s1 = (Returned false, s1) ->
  let s2 := after (DS.Insert w id' e s1) in
  DS.Insert w id' e s1 = (Returned tt, s2) ∧
  AZ.Add w id' e (after (AZ.Remove w id s)) = (Returned tt, s2) ∧
  vsize (m_Elements s2) = vsize (m_Elements s) ∧
  vsize (m_Element_To_ID s2) = vsize (m_Element_To_ID s) ∧
  m_CurrentLast s2 = m_CurrentLast s ∧
  vat (m_Elements s2) (m_CurrentLast s - 1) = Some e ∧
  vat (m_Element_To_ID s2) (m_CurrentLast s - 1) = Some id'.
Proof.
  intros Hwf Hex%Exists_true s1.
  destruct (Erase_wf_spec w s id Hwf Hex)
    as (s1' & HErase & Hwf1 & Hcnt & Hpos & Hlen & Hsup & Hst).
  assert (s1 = s1') as -> by (subst s1; by rewrite HErase).
  intros Hid' Habs%Exists_false s2.
  pose proof (supported_absent w s1' id' Habs Hid') as Hat.
  assert (after (AZ.Remove w id s) = s1') as ->
    by (by rewrite AZ_Remove_eq, HErase).
  change (@AZ.Add) with (@DS.Insert).
  subst s2. rewrite (Insert_wf_absent w s1' id' e Hwf1 Hat).
  unfold after. simpl snd.
  pose proof (wf_dense_cap w s Hwf) as Hcap.
  pose proof (wf_dense_len w s Hwf) as Hlen0.
  pose proof (wf_dense_len w s1' Hwf1) as Hlen1.
  pose proof (wf_dense_cap w s1' Hwf1) as Hcap1.
  destruct (placed_at_count s1' id' e Hlen1 Hcap1) as [Hpi Hpe].
  rewrite Hcnt in Hpi, Hpe.
  assert (m_CurrentLast s1' < vsize (m_Elements s1')) as Hroom by lia.
  apply N.ltb_lt in Hroom.
  unfold inserted. fields. repeat split; try done.
  - unfold placed. rewrite Hroom. fields. by rewrite vsize_insert.
  - unfold placed. rewrite Hroom. fields. rewrite vsize_insert.
    unfold vsize in *. lia.
  - lia.
Qed.

(** X12 on [three_ids]: erase 1, then insert 0. *)
Lemma X12_witness :
  let s2 := after (DS.Insert U8 0 40%nat (after (DS.Erase U8 1 three_ids))) in
  vsize (m_Elements s2) = vsize (m_Elements three_ids) ∧
  m_CurrentLast s2 = m_CurrentLast three_ids.
Proof.
  assert (wf U8 three_ids) as Hwf.
  { apply exec_wf; [by apply (wf_construct U8 (CtorSized 4))|].
    repeat constructor. }
  destruct (X12_Insert_reuses_the_freed_slot U8 three_ids 1 0 40%nat Hwf)
    as (_ & _ & Hlen & _ & Hcnt & _); [reflexivity|reflexivity|reflexivity|].
  split; [exact Hlen|exact Hcnt].
Defined.



Lemma live_ids_NoDup {E : Type} w (s : SparseSet E) :
  wf w s -> NoDup (take (N.to_nat (m_CurrentLast s)) (m_Element_To_ID s)).
Proof.
  intros Hwf. apply NoDup_alt. intros i j id Hi Hj.
  destruct (live_id_sparse w s i id Hwf Hi) as [Hati _].
  destruct (live_id_sparse w s j id Hwf Hj) as [Hatj _].
  rewrite Hati in Hatj. injection Hatj. lia.
Qed.

Lemma live_ids_elem {E : Type} w (s : SparseSet E) id :
  wf w s ->
  id ∈ take (N.to_nat (m_CurrentLast s)) (m_Element_To_ID s) <->
  present w s id = true.
Proof.
  intros Hwf. pose proof (wf_count_is_id w s Hwf) as Hcid. split.
  - intros [i Hi]%list_elem_of_lookup.
    destruct (live_id_sparse w s i id Hwf Hi) as [Hat Hlt].
    apply present_true. exists (N.of_nat i). split; [done|lia].
  - intros Hp.
    destruct (wf_present_pos w s id Hwf Hp) as (pos & _ & _ & Hlt & Hid & _).
    apply list_elem_of_lookup. exists (N.to_nat pos).
    apply lookup_take_Some. split; [done|lia].
Qed.

(** X14.  A constructed set answers like a finite map from identifiers to
    elements with a support bound, where Insert maps an identifier that is
    unmapped and below the support, Erase unmaps, Reserve raises the
    support to the larger value and nothing else changes the map: after
    any sequence of calls, Exists says whether the identifier is mapped,
    GetIfExists returns what it is mapped to, NumSupportedElements is the
    support, count is the number of mapped identifiers, and every mapped
    identifier is below the support.  The same in SparseSet.h. *)
Theorem X14_queries_follow_the_map {E : Type} {E0 : ValueInit E} w
    (c : Ctor) (calls : list (Call E)) id :
  ctor_ok w c -> Forall (call_ok w) calls ->
  let s := DSCalls.exec w calls (DSCalls.construct w c) in
  let m := model_exec calls (model_construct c) in
  AZCalls.exec w calls (AZCalls.construct w c) = s ∧
  DS.Exists w id s = (Returned (bool_decide (is_Some (entries m !! id))), s) ∧
  AZ.Exists w id s = (Returned (bool_decide (is_Some (entries m !! id))), s) ∧
  DS.GetIfExists w id s = (Returned (entries m !! id), s) ∧
  AZ.GetIfExists w id s = (Returned (entries m !! id), s) ∧
  DS.NumSupportedElements s = (Returned (supported m), s) ∧
  AZ.NumSupportedElements w s = (Returned (supported m), s) ∧
  m_CurrentLast s = N.of_nat (size (entries m)) ∧
  (is_Some (entries m !! id) -> id < supported m).
Proof.
  intros Hc Hcalls s m.
  destruct (constructed_wf w c calls Hc Hcalls) as [Hwf _]. fold s in Hwf.
  destruct (exec_represents w calls _ (model_construct c)
              (wf_construct w c Hc) (represents_construct w c) Hcalls)
    as [Hsup Hent].
  fold s in Hsup, Hent. fold m in Hsup, Hent.
  destruct (GetIfExists_never_fails w s id Hwf) as (HG & HGh & _).
  split.
  { rewrite AZ_construct_eq. apply AZ_exec_eq; [by apply wf_construct|done]. }
  change (@AZ.Exists) with (@DS.Exists).
  rewrite AZ_NumSupportedElements_eq by (by apply (wf_support w)).
  rewrite HG, HGh, Exists_eq, present_stored, <- Hent by done.
  unfold DS.NumSupportedElements, read. rewrite <- Hsup.
  repeat split; try done.
  - rewrite <- size_dom.
    assert (dom (entries m) =
            list_to_set (take (N.to_nat (m_CurrentLast s)) (m_Element_To_ID s)))
      as ->.
    { apply set_eq. intros id'.
      rewrite elem_of_dom, elem_of_list_to_set, live_ids_elem by done.
      rewrite Hent, present_stored by done.
      by rewrite bool_decide_eq_true. }
    rewrite size_list_to_set by (by apply (live_ids_NoDup w)).
    rewrite length_take_le; [lia|].
    pose proof (wf_dense_cap w s Hwf). pose proof (wf_dense_len w s Hwf).
    unfold vsize in *. lia.
  - rewrite Hent. intros [v Hv]. rewrite Hsup.
    unfold stored in Hv.
    destruct (vat (m_ID_To_Element s) id) as [pos|] eqn:Hat; [|done].
    by eapply vat_Some_lt.
Qed.

(** X14 along a run on a [uint8_t] set of four identifiers; the map ends
    as 2 to 20, 3 to 30. *)
Lemma X14_witness :
  let calls := [CInsert 1 10; CInsert 2 20; CInsert 3 30; CErase 1;
                CInsert 9 5; CInsert 2 21; CShrinkToFit; CReserve 8]%nat in
  let s := DSCalls.exec U8 calls (DSCalls.construct U8 (CtorSized 4)) in
  let m := model_exec calls (model_construct (CtorSized 4)) in
  DS.GetIfExists U8 2 s = (Returned (entries m !! 2), s) ∧
  m_CurrentLast s = N.of_nat (size (entries m)).
Proof.
  destruct (X14_queries_follow_the_map U8 (CtorSized 4)
     [CInsert 1 10; CInsert 2 20; CInsert 3 30; CErase 1;
      CInsert 9 5; CInsert 2 21; CShrinkToFit; CReserve 8]%nat 2)
    as (_ & _ & _ & HG & _ & _ & _ & Hcnt & _).
  - reflexivity.
  - repeat constructor.
  - split; [exact HG|exact Hcnt].
Defined.

(** X15.  On a consistent set an Insert (Add) that throws, because the
    identifier is at or beyond NumSupportedElements, leaves a consistent
    set with the same support and count in which Exists and GetIfExists
    answer as before for every identifier, and Get as before for every
    identifier that exists.  The dense arrays have grown by one slot when
    they were full and not at all otherwise, so a second failing Insert
    does not grow them again. *)
Theorem X15_failed_Insert_changes_no_answer {E : Type} w (s : SparseSet E)
    id (e : E) id' :
  wf w s ->
  vsize (m_ID_To_Element s) <= id ->
  let s' := after (DS.Insert w id e s) in
  DS.Insert w id e s = (OutOfRange, s') ∧
  AZ.Add w id e s = (OutOfRange, s') ∧
  wf w s' ∧
  DS.Exists w id' s' = (fst (DS.Exists w id' s), s') ∧
  DS.GetIfExists w id' s' = (fst (DS.GetIfExists w id' s), s') ∧
  (DS.Exists w id' s = (Returned true, s) ->
   DS.Get id' s' = (fst (DS.Get id' s), s')) ∧
  m_ID_To_Element s' = m_ID_To_Element s ∧
  DS.NumSupportedElements s' = (fst (DS.NumSupportedElements s), s') ∧
  m_CurrentLast s' = m_CurrentLast s ∧
  vsize (m_Elements s') = N.max (vsize (m_Elements s)) (m_CurrentLast s + 1) ∧
  vsize (m_Element_To_ID s') = N.max (vsize (m_Element_To_ID s)) (m_CurrentLast s + 1) ∧
  (∀ id2 (e2 : E), vsize (m_ID_To_Element s') <= id2 ->
     outcome (DS.Insert w id2 e2 s') = OutOfRange ∧
     vsize (m_Elements (after (DS.Insert w id2 e2 s'))) = vsize (m_Elements s') ∧
     vsize (m_Element_To_ID (after (DS.Insert w id2 e2 s'))) =
       vsize (m_Element_To_ID s')).
Proof.
  intros Hwf Hge s'. change (@AZ.Add) with (@DS.Insert).
  subst s'. rewrite (Insert_wf_unsupported w s id e Hwf Hge).
  unfold after. simpl snd.
  pose proof (wf_placed w s id e Hwf) as Hwf'.
  pose proof (wf_dense_cap w s Hwf) as Hcap.
  pose proof (wf_dense_len w s Hwf) as Hlen.
  pose proof (wf_dense_len w _ Hwf') as Hlen'.
  assert (vsize (m_Elements (placed id e s)) =
          N.max (vsize (m_Elements s)) (m_CurrentLast s + 1)) as Hgrow.
  { unfold placed.
    destruct (N.ltb_spec (m_CurrentLast s) (vsize (m_Elements s))); fields.
    - rewrite vsize_insert. lia.
    - rewrite vsize_snoc. lia. }
  split; [done|]. split; [done|]. split; [done|].
  split; [|split; [|split; [|split; [|split; [|split; [|split; [|split]]]]]]].
  - rewrite !Exists_eq. simpl fst. unfold present. by rewrite placed_sparse.
  - destruct (GetIfExists_never_fails w _ id' Hwf') as (-> & _).
    destruct (GetIfExists_never_fails w s id' Hwf) as (-> & _).
    simpl fst. by rewrite stored_placed.
  - intros Hex%Exists_true.
    destruct (wf_present_pos w s id' Hwf Hex) as (pos & Hat & Hne & Hlt & _ & v & Hv).
    rewrite !Get_eq. simpl fst. rewrite placed_sparse, Hat, Hv.
    destruct (placed_below_count s id e pos (wf_dense_len w s Hwf) Hcap Hlt)
      as [_ ->]. by rewrite Hv.
  - apply placed_sparse.
  - unfold DS.NumSupportedElements, read. simpl fst. by rewrite placed_sparse.
  - apply placed_count.
  - done.
  - unfold vsize in *. lia.
  - intros id2 e2 Hge2.
    rewrite (Insert_wf_unsupported w _ id2 e2 Hwf') by done.
    unfold outcome. simpl. split; [done|].
    assert (m_CurrentLast (placed id e s) < vsize (m_Elements (placed id e s)))
      as Hroom%N.ltb_lt by (rewrite placed_count; lia).
    clear Hgrow Hlen' Hwf' Hge2. remember (placed id e s) as s1.
    unfold placed. rewrite Hroom. fields. by rewrite !vsize_insert.
Qed.

(** X15 on [three_ids] (four supported identifiers, dense arrays full)
    with the identifier 9. *)
Lemma X15_witness :
  let s' := after (DS.Insert U8 9 5%nat three_ids) in
  DS.Insert U8 9 5%nat three_ids = (OutOfRange, s') ∧
  DS.GetIfExists U8 3 s' = (fst (DS.GetIfExists U8 3 three_ids), s') ∧
  vsize (m_Elements s') = N.max (vsize (m_Elements three_ids)) (m_CurrentLast three_ids + 1).
Proof.
  assert (wf U8 three_ids) as Hwf.
  { apply exec_wf; [by apply (wf_construct U8 (CtorSized 4))|].
    repeat constructor. }
  destruct (X15_failed_Insert_changes_no_answer U8 three_ids 9 5%nat 3 Hwf)
    as (HIns & _ & _ & _ & HG & _ & _ & _ & _ & Hlen & _); [discriminate|].
  split; [exact HIns|]. split; [exact HG|exact Hlen].
Defined.

(** X16.  On a consistent set, an identifier at or beyond
    NumSupportedElements makes Insert throw; after Reserve (ExtendTo) with
    an argument above the identifier the same Insert returns, the
    identifier exists and Get returns the element, and every identifier
    that existed before Reserve still reads the same through
    GetIfExists. *)
Theorem X16_Reserve_makes_room_for_Insert {E : Type} w (s : SparseSet E)
    n id (e : E) id' :
  wf w s -> is_id w n ->
  vsize (m_ID_To_Element s) <= id -> id < n ->
  let s1 := after (DS.Reserve w n s) in
  let s2 := after (DS.Insert w id e s1) in
  outcome (DS.Insert w id e s) = OutOfRange ∧
  DS.NumSupportedElements s1 = (Returned n, s1) ∧
  DS.GetIfExists w id' s1 = (fst (DS.GetIfExists w id' s), s1) ∧
  DS.Insert w id e s1 = (Returned tt, s2) ∧
  AZ.Add w id e (after (AZ.ExtendTo w n s)) = (Returned tt, s2) ∧
  DS.Exists w id s2 = (Returned true, s2) ∧
  DS.Get id s2 = (Returned e, s2).
Proof.
  intros Hwf Hn Hge Hlt s1 s2.
  change (@AZ.Add) with (@DS.Insert). change (@AZ.ExtendTo) with (@DS.Reserve).
  fold s1.
  assert (s1 = set_ID_To_Element
                 (vresize n (InvalidIndex w) (m_ID_To_Element s)) s) as Hs1.
  { subst s1. rewrite Reserve_eq. unfold after. simpl snd.
    destruct (N.ltb_spec (vsize (m_ID_To_Element s)) n); [done|lia]. }
  assert (wf w s1) as Hwf1 by (rewrite Hs1; apply wf_reserved; [done|done|lia]).
  assert (vat (m_ID_To_Element s1) id = Some (InvalidIndex w)) as Hat.
  { rewrite Hs1. unfold set_ID_To_Element. fields. by apply vat_resize_new. }
  destruct (inserted_read w s1 id e Hwf1 Hat) as [Hp HGet].
  subst s2. rewrite (Insert_wf_absent w s1 id e Hwf1 Hat).
  rewrite (Insert_wf_unsupported w s id e Hwf Hge).
  unfold after, outcome. simpl.
  split; [done|]. split.
  { unfold DS.NumSupportedElements, read. rewrite Hs1 at 1.
    unfold set_ID_To_Element. fields. by rewrite vsize_resize. }
  split.
  { destruct (GetIfExists_never_fails w s1 id' Hwf1) as (-> & _).
    destruct (GetIfExists_never_fails w s id' Hwf) as (-> & _).
    simpl fst. rewrite Hs1 at 1. rewrite stored_reserved; [done|lia]. }
  split; [done|]. split; [done|]. split; [by apply Exists_true|done].
Qed.

(** X16 on [SparseSet<uint8_t, int> s(4)] with the three entries of
    [three_ids], identifier 6 and [Reserve(8)]. *)
Lemma X16_witness :
  outcome (DS.Insert U8 6 60%nat three_ids) = OutOfRange ∧
  DS.Get 6 (after (DS.Insert U8 6 60%nat (after (DS.Reserve U8 8 three_ids)))) =
    (Returned 60%nat,
     after (DS.Insert U8 6 60%nat (after (DS.Reserve U8 8 three_ids)))).
Proof.
  assert (wf U8 three_ids) as Hwf.
  { apply exec_wf; [by apply (wf_construct U8 (CtorSized 4))|].
    repeat constructor. }
  destruct (X16_Reserve_makes_room_for_Insert U8 three_ids 8 6 60%nat 0 Hwf)
    as (Hthrow & _ & _ & _ & _ & _ & HGet);
    [reflexivity|discriminate|reflexivity|].
  split; [exact Hthrow|exact HGet].
Defined.

(** X17.  On a consistent set the only calls that can throw are Insert
    and Get: Erase, GetIfExists, Exists, ShrinkToFit, Reserve,
    NumSupportedElements and GetData always return; Insert (either
    overload) throws exactly when the identifier is at or beyond
    NumSupportedElements; Get returns for every identifier that exists
    and throws for every identifier at or beyond NumSupportedElements.
    The same calls throw in SparseSet.h. *)
Theorem X17_which_calls_throw {E : Type} {E0 : ValueInit E} w
    (s : SparseSet E) (c : Call E) :
  wf w s ->
  ((fst (AZCalls.call w c s) = OThrow) <-> (fst (DSCalls.call w c s) = OThrow)) ∧
  match c with
  | CInsert id _ | CInsertMove id _ =>
      fst (DSCalls.call w c s) = OThrow <-> vsize (m_ID_To_Element s) <= id
  | CGet id =>
      (DS.Exists w id s = (Returned true, s) -> fst (DSCalls.call w c s) ≠ OThrow) ∧
      (vsize (m_ID_To_Element s) <= id -> fst (DSCalls.call w c s) = OThrow)
  | _ => fst (DSCalls.call w c s) ≠ OThrow
  end.
Proof.
  intros Hwf. split.
  { rewrite AZ_call_eq by (by apply (wf_support w)). simpl fst.
    destruct (fst (DSCalls.call w c s)); destruct c; simpl;
      split; (done || intros [=]). }
  destruct c as [id e|id e|id|id|id|id| |n| |]; unfold DSCalls.call.
  - destruct (present w s id) eqn:Hp.
    + rewrite Insert_present by done. simpl.
      apply present_true in Hp as (pos & Hat%vat_Some_lt & _).
      split; [done|lia].
    + apply present_false in Hp as [Hge|Hat].
      * rewrite Insert_wf_unsupported by done. done.
      * rewrite Insert_wf_absent by done. simpl.
        apply vat_Some_lt in Hat. split; [done|lia].
  - destruct (present w s id) eqn:Hp.
    + rewrite Insert_move_present by done. simpl.
      apply present_true in Hp as (pos & Hat%vat_Some_lt & _).
      split; [done|lia].
    + apply present_false in Hp as [Hge|Hat].
      * rewrite Insert_move_wf_unsupported by done. done.
      * rewrite Insert_move_wf_absent by done. simpl.
        apply vat_Some_lt in Hat. split; [done|lia].
  - destruct (present w s id) eqn:Hp.
    + destruct (Erase_wf_spec w s id Hwf Hp) as (s' & -> & _). done.
    + by rewrite Erase_absent.
  - rewrite Get_eq. split.
    + intros Hex%Exists_true.
      destruct (wf_present_pos w s id Hwf Hex) as (pos & Hat & _ & _ & _ & v & Hv).
      by rewrite Hat, Hv.
    + intros Hge. by rewrite vat_ge.
  - destruct (GetIfExists_never_fails w s id Hwf) as (-> & _). done.
  - by rewrite Exists_eq.
  - by rewrite ShrinkToFit_eq.
  - by rewrite Reserve_eq.
  - done.
  - done.
Qed.

(** X17 on [three_ids]: Insert of the unsupported identifier 4 throws,
    Erase of it does not. *)
Lemma X17_witness :
  (fst (DSCalls.call U8 (CInsert 4 7%nat) three_ids) = OThrow <->
   vsize (m_ID_To_Element three_ids) <= 4) ∧
  fst (DSCalls.call U8 (CErase 4) three_ids) ≠ (OThrow : Obs nat).
Proof.
  assert (wf U8 three_ids) as Hwf.
  { apply exec_wf; [by apply (wf_construct U8 (CtorSized 4))|].
    repeat constructor. }
  split.
  - exact (proj2 (X17_which_calls_throw U8 three_ids (CInsert 4 7%nat) Hwf)).
  - exact (proj2 (X17_which_calls_throw U8 three_ids (CErase 4) Hwf)).
Defined.
